(** * pyrseas.dbobject.operator

    A shallow embedding of [Operator] and [OperatorDict] from
    [pyrseas/dbobject/operator.py], and the properties of the operator
    object model that the specification states about them.

    Python objects are embedded as their attribute dictionaries, Python
    dictionaries as finite maps, exceptions as an error monad, and the
    collection that a loader fills as explicit state that survives a
    raised exception. *)

From Stdlib Require Import ZArith Ascii String.
From stdpp Require Import base tactics option list strings pretty gmap.

Local Open Scope Z_scope.
#[local] Set Warnings "-clear-no-such-hyp".

(** ** Python [str] methods

    A character of the model is a code point below 256.  Only the
    methods that [operator.py] calls are embedded, each with the
    one-character argument the source passes. *)
Module Str.

Fixpoint length (s : string) : nat :=
  match s with
  | "" => O
  | String _ s' => S (length s')
  end.

Fixpoint drop (n : nat) (s : string) : string :=
  match n, s with
  | O, _ => s
  | S _, "" => ""
  | S n', String _ s' => drop n' s'
  end.

Fixpoint take (n : nat) (s : string) : string :=
  match n, s with
  | O, _ => ""
  | S _, "" => ""
  | S n', String a s' => String a (take n' s')
  end.

(** An index of a slice: negative indices count from the end, and the
    result is clamped to [0 .. len]. *)
Definition clamp (len : nat) (i : Z) : nat :=
  let j := if i <? 0 then i + Z.of_nat len else i in
  Z.to_nat (Z.min (Z.max j 0) (Z.of_nat len)).

(** [s[lo:hi]]; [None] is an omitted bound. *)
Definition slice (s : string) (lo hi : option Z) : string :=
  let len := length s in
  let l := from_option (clamp len) O lo in
  let h := from_option (clamp len) len hi in
  take (h - l) (drop l s).

Fixpoint index (s : string) (c : ascii) : option nat :=
  match s with
  | "" => None
  | String a s' =>
      if decide (a = c) then Some O else S <$> index s' c
  end.

(** [s.find(c)]: the lowest index of [c], or -1. *)
Definition find (s : string) (c : ascii) : Z :=
  from_option Z.of_nat (-1) (index s c).

(** [s.partition(c)]: the part before the first [c], the separator and
    the part after it; [(s, '', '')] when [c] does not occur. *)
Fixpoint partition (s : string) (c : ascii) : string * string * string :=
  match s with
  | "" => ("", "", "")
  | String a s' =>
      if decide (a = c) then ("", String a "", s')
      else let '(h, m, t) := partition s' c in (String a h, m, t)
  end.

(** [s.split(c)]: never empty, one more element than [c] occurs. *)
Fixpoint split (s : string) (c : ascii) : list string :=
  match s with
  | "" => [""]
  | String a s' =>
      if decide (a = c) then "" :: split s' c
      else match split s' c with
           | h :: t => String a h :: t
           | [] => [String a ""]
           end
  end.

(** [c.isspace()] on the code points below 256. *)
Definition isspace (c : ascii) : bool :=
  let n := nat_of_ascii c in
  bool_decide (9 ≤ n ≤ 13 ∨ 28 ≤ n ≤ 32 ∨ n = 133 ∨ n = 160)%nat.

(** [s.lstrip()] *)
Fixpoint lstrip (s : string) : string :=
  match s with
  | "" => ""
  | String a s' => if isspace a then lstrip s' else s
  end.

(** [sep.join(l)] *)
Fixpoint join (sep : string) (l : list string) : string :=
  match l with
  | [] => ""
  | [x] => x
  | x :: l' => x +:+ sep +:+ join sep l'
  end.

Definition lower_char (c : ascii) : ascii :=
  let n := nat_of_ascii c in
  if bool_decide (65 ≤ n ≤ 90 ∨ (192 ≤ n ≤ 222 ∧ n ≠ 215))%nat
  then ascii_of_nat (n + 32) else c.

(** [s.lower()] *)
Fixpoint lower (s : string) : string :=
  match s with
  | "" => ""
  | String a s' => String (lower_char a) (lower s')
  end.

Fixpoint count (s : string) (c : ascii) : nat :=
  match s with
  | "" => O
  | String a s' => (if decide (a = c) then 1 else 0)%nat + count s' c
  end.

(** [s.startswith(p)] *)
Fixpoint startswith (s p : string) : bool :=
  match p, s with
  | "", _ => true
  | String _ _, "" => false
  | String b p', String a s' => bool_decide (a = b) && startswith s' p'
  end.

(** [s.endswith(c)] for a single character [c] *)
Fixpoint endswith (s : string) (c : ascii) : bool :=
  match s with
  | "" => false
  | String a "" => bool_decide (a = c)
  | String _ s' => endswith s' c
  end.

End Str.

(** ** Python values, exceptions and objects *)

(** The values an attribute of a catalog row or of a desired-state
    specification holds: [None], a boolean, an integer (the row's oid) or
    a string. *)
Inductive value :=
  | VNone
  | VBool (b : bool)
  | VInt (n : Z)
  | VStr (s : string).

#[global] Instance value_eq_dec : EqDecision value.
Proof. solve_decision. Defined.

#[global] Instance value_countable : Countable value.
Proof.
  refine (inj_countable'
    (λ v, match v with
          | VNone => inl ()
          | VBool b => inr (inl b)
          | VInt n => inr (inr (inl n))
          | VStr s => inr (inr (inr s))
          end)
    (λ x, match x with
          | inl _ => VNone
          | inr (inl b) => VBool b
          | inr (inr (inl n)) => VInt n
          | inr (inr (inr s)) => VStr s
          end) _).
  by intros [].
Defined.

(** [bool(v)] *)
Definition truthy (v : value) : bool :=
  match v with
  | VNone => false
  | VBool b => b
  | VInt n => bool_decide (n ≠ 0)
  | VStr s => bool_decide (s ≠ "")
  end.

(** [str(v)], which is what ['%s' % v] prints. *)
Definition str (v : value) : string :=
  match v with
  | VNone => "None"
  | VBool true => "True"
  | VBool false => "False"
  | VInt n => pretty n
  | VStr s => s
  end.

(** A boolean is an integer for [==] and for hashing: [True == 1]. *)
Definition hashable (v : value) : value :=
  match v with
  | VBool b => VInt (Z.b2z b)
  | _ => v
  end.

(** [v == w] *)
Definition py_eq (v w : value) : bool :=
  bool_decide (hashable v = hashable w).

(** [v != w] *)
Definition py_ne (v w : value) : bool := negb (py_eq v w).

(** A tuple used as a dictionary key. *)
Definition tkey (t : list value) : list value := hashable <$> t.

(** The exceptions [operator.py] can raise.  [UnpackError] is the
    [ValueError] of a tuple assignment whose right-hand side has [got]
    elements instead of [expected]; the interpreter words its message
    differently from version to version, so the model keeps the two
    numbers. *)
Inductive exn :=
  | AttributeError (attr : string)
  | KeyError (msg : string)
  | ValueError (msg : string)
  | UnpackError (expected got : nat)
  | TypeError (msg : string).

#[global] Instance exn_eq_dec : EqDecision exn.
Proof. solve_decision. Defined.

Inductive result (A : Type) :=
  | Ok (a : A)
  | Raise (e : exn).
Arguments Ok {A} a.
Arguments Raise {A} e.

#[global] Instance result_ret : MRet result := @Ok.
#[global] Instance result_bind : MBind result := λ A B f m,
  match m with
  | Ok a => f a
  | Raise e => Raise e
  end.

Definition is_Ok {A} (m : result A) : Prop := ∃ a, m = Ok a.

(** An object is its [__dict__]. *)
Abbreviation attrs := (gmap string value).

Definition getattr (o : attrs) (a : string) : result value :=
  match o !! a with
  | Some v => Ok v
  | None => Raise (AttributeError a)
  end.

Definition hasattr (o : attrs) (a : string) : bool :=
  bool_decide (is_Some (o !! a)).

Definition setattr (a : string) (v : value) (o : attrs) : attrs :=
  <[a := v]> o.

(** [del o.a] *)
Definition delattr (o : attrs) (a : string) : result attrs :=
  match o !! a with
  | Some _ => Ok (delete a o)
  | None => Raise (AttributeError a)
  end.

(** [sep.join(l)] on values: every element has to be a string. *)
Definition join_values (sep : string) (l : list value) : result string :=
  l' ← mapM (M := result) (λ v, match v with
                  | VStr s => Ok s
                  | _ => Raise (TypeError "sequence item: expected str instance")
                  end) l;
  mret (Str.join sep l').

(** ** The sibling collections and the objects a dependency set holds *)

(** A reference to a database object: its class and its identity.  A
    dependency set holds the objects themselves, compared by identity. *)
Inductive DbObject :=
  | TypeObj (id : positive)
  | FunctionObj (id : positive)
  | OperatorObj (id : positive)
  | OtherObj (id : positive).

#[global] Instance DbObject_eq_dec : EqDecision DbObject.
Proof. solve_decision. Defined.

#[global] Instance DbObject_countable : Countable DbObject.
Proof.
  refine (inj_countable'
    (λ o, match o with
          | TypeObj i => inl (inl i)
          | FunctionObj i => inl (inr i)
          | OperatorObj i => inr (inl i)
          | OtherObj i => inr (inr i)
          end)
    (λ x, match x with
          | inl (inl i) => TypeObj i
          | inl (inr i) => FunctionObj i
          | inr (inl i) => OperatorObj i
          | inr (inr i) => OtherObj i
          end) _).
  by intros [].
Defined.

(** What [get_implied_deps] reads of its [db] argument: [db.types.find],
    which answers a type name with the type found or [None], and the
    dictionary [db.functions], keyed by (schema, name, arguments). *)
Record Db := {
  types_find : value → option positive;
  functions : gmap (list value) positive
}.

(** [k in d], [d[k]] and [d.get(k)] for a dictionary keyed by tuples.
    The map holds every key in the form [tkey] gives it, so that keys
    that are equal for Python are one key. *)
Definition dict_contains {V} (d : gmap (list value) V) (k : list value) : bool :=
  bool_decide (is_Some (d !! tkey k)).

Definition dict_getitem {V} (d : gmap (list value) V) (k : list value) : result V :=
  match d !! tkey k with
  | Some v => Ok v
  | None => Raise (KeyError (Str.join ", " (str <$> k)))
  end.

Definition dict_get {V} (d : gmap (list value) V) (k : list value) : option V :=
  d !! tkey k.

(** ** class Operator *)

Definition nl : string := String "010"%char "".

(** [',\n    '], which separates the clauses of a CREATE statement *)
Definition clause_sep : string := "," +:+ nl +:+ "    ".

Definition keylist : list string := ["schema"; "name"; "leftarg"; "rightarg"].

(** Modelled from the spec: [objtype] is a property of the base class
    [DbObject], which is not part of this module.  The key of the
    desired-state document starts with the tag [operator], the lowercase
    object type. *)
Definition objtype : string := "OPERATOR".

(** Modelled from the spec: [key()] is a method of the base class
    [DbObject], which is not part of this module.  The lookup key is the
    tuple (schema, name, leftArg, rightArg), the attributes of [keylist]. *)
Definition key (self : attrs) : result (list value) :=
  mapM (M := result) (getattr self) keylist.

(** Modelled from the spec: the constructor of [Operator], called with
    keyword arguments, is inherited from [DbObject], which is not part of this module.  It
    stores the attributes it is given, and the flags [hashes] and [merges]
    only if true: a false value is treated as absent. *)
Definition Operator_init (kwargs : attrs) : attrs :=
  filter (λ kv, kv.1 ∈ ["hashes"; "merges"] → truthy kv.2 = true) kwargs.

Section Operator.

(** [quote_id] and [split_schema_obj] are imported from
    [pyrseas.dbobject]; their code is not part of this module.
    [split_schema_obj obj sch] takes the default schema as an optional
    second argument. *)
Variable quote_id : value → result string.
Variable split_schema_obj : value → option value → result (value * value).

Definition extern_key (self : attrs) : result string :=
  let tag := Str.lower objtype in
  name ← getattr self "name";
  leftarg ← getattr self "leftarg";
  rightarg ← getattr self "rightarg";
  mret (tag +:+ " " +:+ str name +:+ "(" +:+ str leftarg +:+ ", "
          +:+ str rightarg +:+ ")").

(** [a and b or c]: [c] is evaluated and returned also when [a] holds
    and [b] is falsy. *)
Definition qualname (self : attrs) : result value :=
  let qualified :=
    schema ← getattr self "schema";
    q ← quote_id schema;
    name ← getattr self "name";
    mret (VStr (q +:+ "." +:+ str name)) in
  schema ← getattr self "schema";
  if py_eq schema (VStr "public") then
    name ← getattr self "name";
    if truthy name then mret name else qualified
  else qualified.

Definition identifier (self : attrs) : result string :=
  q ← qualname self;
  leftarg ← getattr self "leftarg";
  rightarg ← getattr self "rightarg";
  mret (str q +:+ "(" +:+ str leftarg +:+ ", " +:+ str rightarg +:+ ")").

(** The first part of the body of [create]: the list [opt_clauses]
    that the eight conditionals fill. *)
Definition create_opt_clauses (self : attrs) : result (list string) :=
  let opt_clauses : list string := [] in
  leftarg ← getattr self "leftarg";
  let opt_clauses :=
    if py_ne leftarg (VStr "NONE")
    then opt_clauses ++ ["LEFTARG = " +:+ str leftarg]
    else opt_clauses in
  rightarg ← getattr self "rightarg";
  let opt_clauses :=
    if py_ne rightarg (VStr "NONE")
    then opt_clauses ++ ["RIGHTARG = " +:+ str rightarg]
    else opt_clauses in
  let opt_clauses :=
    match self !! "commutator" with
    | Some commutator =>
        opt_clauses ++ ["COMMUTATOR = OPERATOR(" +:+ str commutator +:+ ")"]
    | None => opt_clauses
    end in
  let opt_clauses :=
    match self !! "negator" with
    | Some negator =>
        opt_clauses ++ ["NEGATOR = OPERATOR(" +:+ str negator +:+ ")"]
    | None => opt_clauses
    end in
  let opt_clauses :=
    match self !! "restrict" with
    | Some restrict => opt_clauses ++ ["RESTRICT = " +:+ str restrict]
    | None => opt_clauses
    end in
  let opt_clauses :=
    match self !! "join" with
    | Some join => opt_clauses ++ ["JOIN = " +:+ str join]
    | None => opt_clauses
    end in
  let opt_clauses :=
    match self !! "hashes" with
    | Some hashes => if truthy hashes then opt_clauses ++ ["HASHES"]
                     else opt_clauses
    | None => opt_clauses
    end in
  let opt_clauses :=
    match self !! "merges" with
    | Some merges => if truthy merges then opt_clauses ++ ["MERGES"]
                     else opt_clauses
    | None => opt_clauses
    end in
  mret opt_clauses.

(** The body of [create]; the decorators [commentable] and [ownable]
    wrap it and are not part of this module. *)
Definition create (self : attrs) : result (list string) :=
  opt_clauses ← create_opt_clauses self;
  q ← qualname self;
  procedure ← getattr self "procedure";
  mret ["CREATE OPERATOR " +:+ str q +:+ " (" +:+ nl +:+ "    PROCEDURE = "
          +:+ str procedure
          +:+ (match opt_clauses with [] => "" | _ => clause_sep end)
          +:+ Str.join clause_sep opt_clauses +:+ ")"].

(** [super_deps] is the set that the call to the base class's
    [get_implied_deps] returns; the base class is not part of this
    module. *)
Definition get_implied_deps (super_deps : gset DbObject) (self : attrs)
    (db : Db) : result (gset DbObject) :=
  let deps := super_deps in
  la ← getattr self "leftarg";
  let leftarg := types_find db la in
  let deps := match leftarg with
              | Some t => deps ∪ {[TypeObj t]}
              | None => deps
              end in
  ra ← getattr self "rightarg";
  let rightarg := types_find db ra in
  let deps := match rightarg with
              | Some t => deps ∪ {[TypeObj t]}
              | None => deps
              end in
  procedure ← getattr self "procedure";
  schema ← getattr self "schema";
  '(fschema, fname) ← split_schema_obj procedure (Some schema);
  la ← getattr self "leftarg";
  ra ← getattr self "rightarg";
  fargs ← join_values ", " (filter (λ t, py_ne t (VStr "NONE") = true) [la; ra]);
  deps ← (if dict_contains (functions db) [fschema; fname; VStr fargs] then
            func ← dict_getitem (functions db) [fschema; fname; VStr fargs];
            mret (deps ∪ {[FunctionObj func]})
          else mret deps);
  let restrict := default VNone (self !! "restrict") in
  if truthy restrict then
    '(fschema, fname) ← split_schema_obj restrict None;
    let func := dict_get (functions db)
                  [fschema; fname; VStr "internal, oid, internal, integer"] in
    match func with
    | Some f => mret (deps ∪ {[FunctionObj f]})
    | None => mret deps
    end
  else mret deps.

End Operator.

(** ** class OperatorDict *)

(** The collection is a dictionary keyed by (schema, name, leftarg,
    rightarg) that carries a second index [by_oid].  A loader updates it
    in place, so an exception leaves it as it was when the exception was
    raised: a loader returns the collection together with its outcome. *)
Record OperatorDict := {
  items : gmap (list value) attrs;
  by_oid : gmap value attrs
}.

Definition empty_dict : OperatorDict := {| items := ∅; by_oid := ∅ |}.

(** [self[k] = oper] *)
Definition setitem (k : list value) (oper : attrs) (self : OperatorDict)
    : OperatorDict :=
  {| items := <[tkey k := oper]> (items self); by_oid := by_oid self |}.

(** [self.by_oid[oid] = oper] *)
Definition set_by_oid (oid : value) (oper : attrs) (self : OperatorDict)
    : OperatorDict :=
  {| items := items self; by_oid := <[hashable oid := oper]> (by_oid self) |}.

(** The body of the loop of [_from_catalog] up to the construction of the
    operator: the oid, the key and the operator built from the row. *)
Definition from_catalog_row (oper : attrs)
    : result (value * list value * attrs) :=
  oid ← getattr oper "oid";
  k ← key oper;
  match k with
  | [sch; opr; lft; rgt] =>
      let '(lft, oper) :=
        if py_eq lft (VStr "-")
        then (VStr "NONE", setattr "leftarg" (VStr "NONE") oper)
        else (lft, oper) in
      let '(rgt, oper) :=
        if py_eq rgt (VStr "-")
        then (VStr "NONE", setattr "rightarg" (VStr "NONE") oper)
        else (rgt, oper) in
      commutator ← getattr oper "commutator";
      oper ← (if py_eq commutator (VStr "0") then delattr oper "commutator"
              else mret oper);
      negator ← getattr oper "negator";
      oper ← (if py_eq negator (VStr "0") then delattr oper "negator"
              else mret oper);
      restrict ← getattr oper "restrict";
      oper ← (if py_eq restrict (VStr "-") then delattr oper "restrict"
              else mret oper);
      join ← getattr oper "join";
      oper ← (if py_eq join (VStr "-") then delattr oper "join"
              else mret oper);
      mret (oid, [sch; opr; lft; rgt], Operator_init oper)
  | _ => Raise (UnpackError 4 (length k))
  end.

(** [rows] is what [self.fetch()] returns: the rows of the catalog query,
    each an object whose attributes are the columns. *)
Fixpoint _from_catalog (rows : list attrs) (self : OperatorDict)
    : OperatorDict * result () :=
  match rows with
  | [] => (self, Ok ())
  | oper :: rows' =>
      match from_catalog_row oper with
      | Ok (oid, k, new) =>
          _from_catalog rows' (set_by_oid oid new (setitem k new self))
      | Raise e => (self, Raise e)
      end
  end.

(** Modelled from the spec: [split_func_args] is imported from
    [pyrseas.dbobject]; its code is not part of this module.  A signature
    is split on the first ( and the last ), by the parsing rules of the
    key parser of [from_map]: the first ( is located and the string has to
    end with ), the parenthesized content is split on the commas, and
    leading whitespace is trimmed from the operands after the first. *)
Definition split_func_args (obj : value) : result (value * list value) :=
  match obj with
  | VStr sig =>
      let paren := Str.find sig "(" in
      if bool_decide (paren = -1 ∨ Str.slice sig (Some (-1)) None ≠ ")")
      then Raise (KeyError ("Invalid operator signature: " +:+ sig))
      else
        let args :=
          match Str.split (Str.slice sig (Some (paren + 1)) (Some (-1))) "," with
          | [] => []
          | l :: rs => VStr l :: ((λ r, VStr (Str.lstrip r)) <$> rs)
          end in
        Ok (VStr (Str.slice sig None (Some paren)), args)
  | _ => Raise (TypeError "expected a string")
  end.

Section OperatorDict.

Variable split_schema_obj : value → option value → result (value * value).

(** [self.get(k)] answers [None] for a key that is absent. *)
Definition find (self : OperatorDict) (oper : value) : result (option attrs) :=
  '(schema, name) ← split_schema_obj oper None;
  '(name, args) ← split_func_args name;
  mret (dict_get (items self) ([schema; name] ++ args)).

End OperatorDict.

(** [not inoper]: the value of a key of the input map is [None] or a map
    of attributes, and it is falsy when it is [None] or empty. *)
Definition spec_falsy (inoper : option attrs) : bool :=
  match inoper with
  | None => true
  | Some m => bool_decide (m = ∅)
  end.

(** [Operator(schema=schema.name, name=opr, leftarg=leftarg,
    rightarg=rightarg)] *)
Definition new_operator (schema_name : value) (opr leftarg rightarg : string)
    : attrs :=
  Operator_init
    (<["schema" := schema_name]> (<["name" := VStr opr]>
      (<["leftarg" := VStr leftarg]> {["rightarg" := VStr rightarg]}))).

(** The end of the loop of [from_map]: every item of the specification
    is set as an attribute of [oper], then [oldname] and [description]
    once more when the specification has them. *)
Definition set_attributes (inoper : attrs) (oper : attrs) : attrs :=
  let oper := map_fold setattr oper inoper in
  let oper := match inoper !! "oldname" with
              | Some v => setattr "oldname" v oper
              | None => oper
              end in
  match inoper !! "description" with
  | Some v => setattr "description" v oper
  | None => oper
  end.

(** The body of the loop of [from_map] for the key [key] and its value
    [inoper].  The new operator is stored in the collection before its
    specification is looked at; the entry of the collection and [oper] are
    one object, so the attributes set on [oper] afterwards are set on the
    entry. *)
Definition from_map_item (schema_name : value) (key : string)
    (inoper : option attrs) (self : OperatorDict) : OperatorDict * result () :=
  let '(objtype, spc, opr) := Str.partition key " " in
  if bool_decide (spc ≠ " " ∨ objtype ≠ "operator") then
    (self, Raise (KeyError ("Unrecognized object type: " +:+ key)))
  else
    let paren := Str.find opr "(" in
    if bool_decide (paren = -1 ∨ Str.slice opr (Some (-1)) None ≠ ")") then
      (self, Raise (KeyError ("Invalid operator signature: " +:+ opr)))
    else
      match Str.split (Str.slice opr (Some (paren + 1)) (Some (-1))) "," with
      | [leftarg; rightarg] =>
          let rightarg := Str.lstrip rightarg in
          let opr := Str.slice opr None (Some paren) in
          let k := [schema_name; VStr opr; VStr leftarg; VStr rightarg] in
          let oper := new_operator schema_name opr leftarg rightarg in
          let self := setitem k oper self in
          if spec_falsy inoper then
            (self, Raise (ValueError
               ("Operator '" +:+ opr +:+ "' has no specification")))
          else
            let oper := set_attributes (default ∅ inoper) oper in
            (setitem k oper self, Ok ())
      | l => (self, Raise (UnpackError 2 (length l)))
      end.

(** [inopers] lists the keys of the input map with their values, in the
    order in which the map yields its keys. *)
Fixpoint from_map (schema_name : value) (inopers : list (string * option attrs))
    (self : OperatorDict) : OperatorDict * result () :=
  match inopers with
  | [] => (self, Ok ())
  | (key, inoper) :: rest =>
      match from_map_item schema_name key inoper self with
      | (self, Ok _) => from_map schema_name rest self
      | (self, Raise e) => (self, Raise e)
      end
  end.

(** ** The statements of the specification *)

(** The optional clauses of the CREATE statement in the order the
    specification fixes, each with the condition under which it is
    listed. *)
Definition optional_clauses (self : attrs) : list (bool * string) :=
  let attr a := default VNone (self !! a) in
  [ (py_ne (attr "leftarg") (VStr "NONE"), "LEFTARG = " +:+ str (attr "leftarg"));
    (py_ne (attr "rightarg") (VStr "NONE"), "RIGHTARG = " +:+ str (attr "rightarg"));
    (hasattr self "commutator",
       "COMMUTATOR = OPERATOR(" +:+ str (attr "commutator") +:+ ")");
    (hasattr self "negator",
       "NEGATOR = OPERATOR(" +:+ str (attr "negator") +:+ ")");
    (hasattr self "restrict", "RESTRICT = " +:+ str (attr "restrict"));
    (hasattr self "join", "JOIN = " +:+ str (attr "join"));
    (hasattr self "hashes" && truthy (attr "hashes"), "HASHES");
    (hasattr self "merges" && truthy (attr "merges"), "MERGES") ].

(** The statement with PROCEDURE first and then the clauses that apply,
    each on a line of its own after a comma. *)
Definition create_statement (qualname procedure : string)
    (clauses : list (bool * string)) : string :=
  "CREATE OPERATOR " +:+ qualname +:+ " (" +:+ nl +:+ "    PROCEDURE = "
    +:+ procedure
    +:+ foldr (λ c acc, clause_sep +:+ c +:+ acc) ")"
          (snd <$> filter (λ c, c.1 = true) clauses).

(** A row of the catalog query has the columns that [_from_catalog]
    reads. *)
Definition complete_row (row : attrs) : bool :=
  forallb (hasattr row)
    ["oid"; "schema"; "name"; "leftarg"; "rightarg"; "commutator"; "negator";
     "restrict"; "join"].

(** The normalization of a row of the catalog as the specification lists
    it: an operand [-] becomes NONE, a commutator or negator [0] and a
    restrict or join [-] are removed, and the flags are kept only if
    true. *)
Definition none_operand (a : string) (row : attrs) : attrs :=
  match row !! a with
  | Some v => if py_eq v (VStr "-") then <[a := VStr "NONE"]> row else row
  | None => row
  end.

Definition drop_marker (marker a : string) (row : attrs) : attrs :=
  match row !! a with
  | Some v => if py_eq v (VStr marker) then delete a row else row
  | None => row
  end.

Definition normalize_row (row : attrs) : attrs :=
  Operator_init
    (drop_marker "-" "join" (drop_marker "-" "restrict"
      (drop_marker "0" "negator" (drop_marker "0" "commutator"
        (none_operand "rightarg" (none_operand "leftarg" row)))))).

(** An operand of the row is stored as it is, and as NONE when it is the
    catalog's [-]. *)
Definition operand_loaded (row new : attrs) (a : string) : Prop :=
  ∀ v, row !! a = Some v →
    new !! a = Some (if py_eq v (VStr "-") then VStr "NONE" else v).

(** A reference of the row is absent when it is the catalog's marker
    for no value, and stored as it is otherwise. *)
Definition reference_loaded (marker : string) (row new : attrs) (a : string)
    : Prop :=
  ∀ v, row !! a = Some v →
    new !! a = if py_eq v (VStr marker) then None else Some v.

(** A flag of the row is stored only if true. *)
Definition flag_loaded (row new : attrs) (a : string) : Prop :=
  new !! a = match row !! a with
             | Some v => if truthy v then Some v else None
             | None => None
             end.

Definition loaded (row new : attrs) : Prop :=
  operand_loaded row new "leftarg" ∧ operand_loaded row new "rightarg" ∧
  reference_loaded "0" row new "commutator" ∧
  reference_loaded "0" row new "negator" ∧
  reference_loaded "-" row new "restrict" ∧
  reference_loaded "-" row new "join" ∧
  flag_loaded row new "hashes" ∧ flag_loaded row new "merges".

(** The key under which a row of the catalog is stored. *)
Definition catalog_key (row : attrs) : list value :=
  let attr a := default VNone (row !! a) in
  let operand a := if py_eq (attr a) (VStr "-") then VStr "NONE" else attr a in
  [attr "schema"; attr "name"; operand "leftarg"; operand "rightarg"].

(** What the desired-state loader does with a key once it is parsed into
    the name and the two operands: the operator is built and stored, an
    empty specification is rejected, and the attributes of the
    specification are set. *)
Definition store_parsed (schema_name : value) (opr leftarg rightarg : string)
    (inoper : option attrs) (self : OperatorDict) : OperatorDict * result () :=
  let k := [schema_name; VStr opr; VStr leftarg; VStr rightarg] in
  let oper := new_operator schema_name opr leftarg rightarg in
  if spec_falsy inoper then
    (setitem k oper self,
     Raise (ValueError ("Operator '" +:+ opr +:+ "' has no specification")))
  else
    (setitem k (set_attributes (default ∅ inoper) oper) (setitem k oper self),
     Ok ()).

(** The argument-type list of the procedure: the operand types that are
    not NONE, joined with a comma and a space. *)
Definition argtypes (leftarg rightarg : string) : string :=
  Str.join ", " (filter (λ t, t ≠ "NONE") [leftarg; rightarg]).

(** The argument signature of a restriction selectivity function. *)
Definition restrict_args : string := "internal, oid, internal, integer".

(** The function that the restrict attribute resolves to: the attribute
    holds a value, [split_schema_obj] splits it into schema and name, and
    the functions collection has the function with the fixed argument
    signature. *)
Definition restrict_found
    (split_schema_obj : value → option value → result (value * value))
    (self : attrs) (db : Db) (f : positive) : Prop :=
  ∃ v fschema fname,
    self !! "restrict" = Some v ∧ truthy v = true ∧
    split_schema_obj v None = Ok (fschema, fname) ∧
    functions db !! tkey [fschema; fname; VStr restrict_args] = Some f.

(** ** Examples *)

(** Stand-ins for the two imported helpers on the names of the examples,
    which need no quoting and carry no schema. *)
Definition example_quote_id (v : value) : result string := Ok (str v).

Definition example_split_schema_obj (obj : value) (sch : option value)
    : result (value * value) :=
  Ok (default (VStr "public") sch, obj).

(** The operator of the docstring of [find]. *)
Definition hstore_ge : attrs :=
  list_to_map
    [("schema", VStr "public"); ("name", VStr "#>=#");
     ("leftarg", VStr "hstore"); ("rightarg", VStr "hstore");
     ("procedure", VStr "hstore_ge"); ("commutator", VStr "#<=#");
     ("restrict", VStr "contsel"); ("hashes", VBool true)].

(** A row of the catalog for a prefix operator without commutator,
    negator or join function, which cannot hash. *)
Definition factorial_row : attrs :=
  list_to_map
    [("oid", VInt 16500); ("schema", VStr "public"); ("name", VStr "!!");
     ("owner", VStr "postgres");
     ("leftarg", VStr "-"); ("rightarg", VStr "bigint");
     ("procedure", VStr "numeric_fac"); ("commutator", VStr "0");
     ("negator", VStr "0"); ("restrict", VStr "-"); ("join", VStr "-");
     ("hashes", VBool false); ("merges", VBool false);
     ("description", VNone)].

(** An operator whose left operand type has a comma in its name. *)
Definition comma_operand : attrs :=
  list_to_map
    [("schema", VStr "public"); ("name", VStr "+");
     ("leftarg", VStr "a,b"); ("rightarg", VStr "c");
     ("procedure", VStr "plus")].

(** An operator of schema public with an empty name, as [from_map]
    builds it for the key [operator (int4, int4)]. *)
Definition unnamed : attrs :=
  list_to_map
    [("schema", VStr "public"); ("name", VStr "");
     ("leftarg", VStr "int4"); ("rightarg", VStr "int4")].

(** A database with the type [hstore] and the function
    [hstore_ge(hstore, hstore)]. *)
Definition hstore_db : Db :=
  {| types_find := λ v, if decide (v = VStr "hstore") then Some 1%positive else None;
     functions := {[ [VStr "public"; VStr "hstore_ge"; VStr "hstore, hstore"] := 7%positive ]} |}.

(** An operator without operands, the degenerate case, and a database
    with its procedure. *)
Definition no_operands : attrs :=
  list_to_map
    [("schema", VStr "public"); ("name", VStr "!"); ("leftarg", VStr "NONE");
     ("rightarg", VStr "NONE"); ("procedure", VStr "now")].

Definition now_db : Db :=
  {| types_find := λ _, None;
     functions := {[ [VStr "public"; VStr "now"; VStr ""] := 9%positive ]} |}.

(** A database without types and functions. *)
Definition empty_db : Db := {| types_find := λ _, None; functions := ∅ |}.

(** The collection that [from_map] builds from a document with the
    operator of the docstring of [find]. *)
Definition hstore_operators : OperatorDict :=
  (from_map (VStr "public")
     [("operator #>=#(hstore, hstore)",
       Some {["procedure" := VStr "hstore_ge"]})] empty_dict).1.

(** ** Further statements about the two loaders *)

(** A key that [from_map] stores: the owning schema, a name without (,
    operand types without comma, and a right operand type without leading
    whitespace. *)
Definition parsed_key (schema_name : value) (k : list value) : Prop :=
  ∃ name l r,
    k = tkey [schema_name; VStr name; VStr l; VStr r] ∧
    Str.count name "(" = 0%nat ∧ Str.count l "," = 0%nat ∧
    Str.count r "," = 0%nat ∧ Str.lstrip r = r.

(** [s] holds whitespace only. *)
Fixpoint all_space (s : string) : bool :=
  match s with
  | "" => true
  | String a s' => Str.isspace a && all_space s'
  end.

(** The columns that [_from_catalog] reads of a row, in the order in
    which it reads them, and the first of them that a row lacks. *)
Definition read_columns : list string :=
  ["oid"; "schema"; "name"; "leftarg"; "rightarg"; "commutator"; "negator";
   "restrict"; "join"].

Definition first_missing (row : attrs) : option string :=
  List.find (λ a, negb (hasattr row a)) read_columns.

(** What the loop of [_from_catalog] does to the collection for a row
    that has its columns. *)
Definition load_row (self : OperatorDict) (row : attrs) : OperatorDict :=
  set_by_oid (default VNone (row !! "oid")) (normalize_row row)
    (setitem (catalog_key row) (normalize_row row) self).

(** The key and the oid of a row as the two dictionaries hold them. *)
Definition row_key (row : attrs) : list value := tkey (catalog_key row).

Definition row_oid (row : attrs) : value :=
  hashable (default VNone (row !! "oid")).

(** The optional clauses of the CREATE statement of a row of the
    catalog, with the conditions on the columns of the row. *)
Definition catalog_clauses (row : attrs) : list (bool * string) :=
  let attr a := default VNone (row !! a) in
  [ (py_ne (attr "leftarg") (VStr "-") && py_ne (attr "leftarg") (VStr "NONE"),
       "LEFTARG = " +:+ str (attr "leftarg"));
    (py_ne (attr "rightarg") (VStr "-") && py_ne (attr "rightarg") (VStr "NONE"),
       "RIGHTARG = " +:+ str (attr "rightarg"));
    (py_ne (attr "commutator") (VStr "0"),
       "COMMUTATOR = OPERATOR(" +:+ str (attr "commutator") +:+ ")");
    (py_ne (attr "negator") (VStr "0"),
       "NEGATOR = OPERATOR(" +:+ str (attr "negator") +:+ ")");
    (py_ne (attr "restrict") (VStr "-"), "RESTRICT = " +:+ str (attr "restrict"));
    (py_ne (attr "join") (VStr "-"), "JOIN = " +:+ str (attr "join"));
    (truthy (attr "hashes"), "HASHES");
    (truthy (attr "merges"), "MERGES") ].

(** The objects that [get_implied_deps] adds to the set of the base
    class, in the order in which it adds them. *)
Definition added_deps
    (split_schema_obj : value → option value → result (value * value))
    (self : attrs) (db : Db) (l r : string) (fschema fname : value)
    : list DbObject :=
  option_list (TypeObj <$> types_find db (VStr l)) ++
  option_list (TypeObj <$> types_find db (VStr r)) ++
  option_list (FunctionObj <$>
                 functions db !! tkey [fschema; fname; VStr (argtypes l r)]) ++
  option_list (FunctionObj <$>
    (v ← self !! "restrict";
     if truthy v then
       match split_schema_obj v None with
       | Ok (rschema, rname) =>
           functions db !! tkey [rschema; rname; VStr restrict_args]
       | Raise _ => None
       end
     else None)).

(** A row of the catalog without the column join. *)
Definition short_row : attrs := delete "join" factorial_row.

(** The row of a second operator. *)
Definition concat_row : attrs :=
  list_to_map
    [("oid", VInt 16501); ("schema", VStr "public"); ("name", VStr "||");
     ("owner", VStr "postgres");
     ("leftarg", VStr "hstore"); ("rightarg", VStr "hstore");
     ("procedure", VStr "hs_concat"); ("commutator", VStr "0");
     ("negator", VStr "0"); ("restrict", VStr "-"); ("join", VStr "-");
     ("hashes", VBool false); ("merges", VBool false);
     ("description", VNone)].

(** A database whose types collection has a type of the name NONE. *)
Definition none_type_db : Db :=
  {| types_find := λ v, if decide (v = VStr "NONE") then Some 3%positive else None;
     functions := ∅ |}.

(** * Properties *)

(** ** Strings *)

Lemma str_app_nil_l (s : string) : "" +:+ s = s.
Proof. reflexivity. Qed.

Lemma str_app_cons (a : ascii) (s t : string) :
  String a s +:+ t = String a (s +:+ t).
Proof. reflexivity. Qed.

Lemma str_app_nil_r (s : string) : s +:+ "" = s.
Proof. induction s as [|a s IH]; [done|]. by rewrite str_app_cons, IH. Qed.

Lemma str_app_assoc (s t u : string) : (s +:+ t) +:+ u = s +:+ t +:+ u.
Proof. induction s as [|a s IH]; [done|]. by rewrite !str_app_cons, IH. Qed.

Lemma str_length_app (s t : string) :
  Str.length (s +:+ t) = (Str.length s + Str.length t)%nat.
Proof. induction s as [|a s IH]; [done|]. rewrite str_app_cons. simpl. by rewrite IH. Qed.

Lemma str_drop_app_length (s t : string) : Str.drop (Str.length s) (s +:+ t) = t.
Proof. induction s as [|a s IH]; [by destruct t|]. by rewrite str_app_cons. Qed.

Lemma str_take_app_length (s t : string) : Str.take (Str.length s) (s +:+ t) = s.
Proof.
  induction s as [|a s IH]; [by destruct t|].
  rewrite str_app_cons. simpl. by rewrite IH.
Qed.

Lemma str_take_drop (n : nat) (s : string) : Str.take n s +:+ Str.drop n s = s.
Proof.
  revert s. induction n as [|n IH]; intros [|a s]; try done.
  simpl. by rewrite str_app_cons, IH.
Qed.

Lemma index_None_count (s : string) (c : ascii) :
  Str.index s c = None ↔ Str.count s c = 0%nat.
Proof.
  induction s as [|a s IH]; [done|]. simpl.
  destruct (decide (a = c)); [done|].
  rewrite fmap_None. simpl. done.
Qed.

Lemma index_app_first (s t : string) (c : ascii) :
  Str.count s c = 0%nat → Str.index (s +:+ String c t) c = Some (Str.length s).
Proof.
  induction s as [|a s IH]; simpl.
  - intros _. by rewrite decide_True.
  - destruct (decide (a = c)); [done|].
    intros H. by rewrite IH.
Qed.

Lemma index_Some_split (s : string) (c : ascii) (i : nat) :
  Str.index s c = Some i →
  s = Str.take i s +:+ String c (Str.drop (S i) s) ∧
  Str.count (Str.take i s) c = 0%nat ∧ Str.length (Str.take i s) = i.
Proof.
  revert i. induction s as [|a s IH]; intros i; [done|]. simpl.
  destruct (decide (a = c)) as [->|Hne].
  - intros [= <-]. by destruct s.
  - destruct (Str.index s c) as [j|] eqn:Hj; [|done].
    intros [= <-]. destruct (IH j eq_refl) as (Hs & Hc & Hl).
    cbn [Str.take Str.count Str.length]. rewrite str_app_cons, decide_False by done.
    rewrite Hc, Hl. split_and!; [|done..]. f_equal. exact Hs.
Qed.

Lemma str_count_app (s t : string) (c : ascii) :
  Str.count (s +:+ t) c = (Str.count s c + Str.count t c)%nat.
Proof.
  induction s as [|a s IH]; [done|]. rewrite str_app_cons. simpl. rewrite IH. lia.
Qed.

Lemma partition_found (s t : string) (c : ascii) :
  Str.count s c = 0%nat →
  Str.partition (s +:+ String c t) c = (s, String c "", t).
Proof.
  induction s as [|a s IH]; simpl.
  - intros _. by rewrite decide_True.
  - destruct (decide (a = c)); [done|].
    intros H. by rewrite IH.
Qed.

Lemma partition_sep (s h m t : string) (c : ascii) :
  Str.partition s c = (h, m, t) →
  (m = String c "" ∧ s = h +:+ String c t) ∨ (m = "" ∧ t = "" ∧ h = s).
Proof.
  revert h m t. induction s as [|a s IH]; intros h m t; simpl.
  - intros [= <- <- <-]. by right.
  - destruct (decide (a = c)) as [->|Hne].
    + intros [= <- <- <-]. by left.
    + destruct (Str.partition s c) as [[h' m'] t'].
      intros [= <- <- <-].
      destruct (IH _ _ _ eq_refl) as [[-> ->]|(-> & -> & ->)]; [by left|by right].
Qed.

Lemma startswith_app (p s : string) : Str.startswith (p +:+ s) p = true.
Proof.
  induction p as [|a p IH]; [by destruct s|].
  rewrite str_app_cons. simpl. by rewrite bool_decide_true, IH.
Qed.

Lemma startswith_inv (s p : string) :
  Str.startswith s p = true → ∃ t, s = p +:+ t.
Proof.
  revert s. induction p as [|b p IH]; intros s; [by exists s|].
  destruct s as [|a s]; [done|]. simpl.
  intros [->%bool_decide_eq_true [t ->]%IH]%andb_true_iff.
  by exists t.
Qed.

Lemma endswith_app (s : string) (c : ascii) :
  Str.endswith (s +:+ String c "") c = true.
Proof.
  induction s as [|a s IH]; simpl.
  - by rewrite bool_decide_true.
  - destruct (s +:+ String c "") eqn:E; [|done].
    by destruct s.
Qed.

Lemma endswith_inv (s : string) (c : ascii) :
  Str.endswith s c = true → ∃ t, s = t +:+ String c "".
Proof.
  induction s as [|a s IH]; [done|]. simpl. destruct s as [|b s].
  - intros ->%bool_decide_eq_true. by exists "".
  - intros [t Ht]%IH. exists (String a t). by rewrite str_app_cons, <-Ht.
Qed.

Lemma str_length_drop (n : nat) (s : string) :
  Str.length (Str.drop n s) = (Str.length s - n)%nat.
Proof. revert s. induction n as [|n IH]; intros [|a s]; simpl; auto. Qed.

Lemma str_take_ge (n : nat) (s : string) :
  (Str.length s ≤ n)%nat → Str.take n s = s.
Proof.
  revert s. induction n as [|n IH]; intros [|a s]; simpl; try done; [lia|].
  intros H. rewrite IH; [done|lia].
Qed.

Lemma str_drop_app_succ (s t : string) (c : ascii) :
  Str.drop (S (Str.length s)) (s +:+ String c t) = t.
Proof. induction s as [|a s IH]; [done|]. by rewrite str_app_cons. Qed.

Lemma clamp_of_nat (len i : nat) : Str.clamp len (Z.of_nat i) = (i `min` len)%nat.
Proof. unfold Str.clamp. destruct (Z.ltb_spec (Z.of_nat i) 0); lia. Qed.

Lemma clamp_minus_one (len : nat) : Str.clamp len (-1) = (len - 1)%nat.
Proof. unfold Str.clamp. simpl. lia. Qed.

(** [s[-1:]] is the last character of [s]. *)
Lemma slice_last_app (s : string) (c : ascii) :
  Str.slice (s +:+ String c "") (Some (-1)) None = String c "".
Proof.
  unfold Str.slice. cbn [from_option]. rewrite clamp_minus_one, str_length_app.
  cbn [Str.length]. replace (Str.length s + 1 - 1)%nat with (Str.length s) by lia.
  rewrite str_drop_app_length. by replace (Str.length s + 1 - Str.length s)%nat with 1%nat by lia.
Qed.

Lemma slice_last_endswith (s : string) (c : ascii) :
  Str.slice s (Some (-1)) None = String c "" ↔ Str.endswith s c = true.
Proof.
  split.
  - unfold Str.slice. cbn [from_option]. rewrite clamp_minus_one. intros H.
    rewrite str_take_ge in H by (rewrite str_length_drop; lia).
    rewrite <-(str_take_drop (Str.length s - 1) s), H. apply endswith_app.
  - intros [t ->]%endswith_inv. apply slice_last_app.
Qed.

(** [s[:i]] and [s[i+1:-1]] around the first ( of a string that ends
    with ). *)
Lemma slice_before (s t : string) :
  Str.slice (s +:+ t) None (Some (Z.of_nat (Str.length s))) = s.
Proof.
  unfold Str.slice. cbn [from_option]. rewrite clamp_of_nat, str_length_app.
  replace (Str.length s `min` (Str.length s + Str.length t) - 0)%nat
    with (Str.length s) by lia.
  apply str_take_app_length.
Qed.

Lemma slice_between (s t : string) (a b : ascii) :
  Str.slice (s +:+ String a (t +:+ String b ""))
    (Some (Z.of_nat (Str.length s) + 1)) (Some (-1)) = t.
Proof.
  unfold Str.slice. cbn [from_option]. rewrite clamp_minus_one.
  replace (Z.of_nat (Str.length s) + 1) with (Z.of_nat (S (Str.length s))) by lia.
  rewrite clamp_of_nat, str_length_app. cbn [Str.length]. rewrite str_length_app.
  cbn [Str.length].
  replace (S (Str.length s) `min` (Str.length s + S (Str.length t + 1)))%nat
    with (S (Str.length s)) by lia.
  rewrite str_drop_app_succ.
  replace (Str.length s + S (Str.length t + 1) - 1 - S (Str.length s))%nat
    with (Str.length t) by lia.
  apply str_take_app_length.
Qed.

Lemma find_app_first (s t : string) (c : ascii) :
  Str.count s c = 0%nat →
  Str.find (s +:+ String c t) c = Z.of_nat (Str.length s).
Proof. intros H. unfold Str.find. by rewrite index_app_first. Qed.

Lemma find_not_found (s : string) (c : ascii) :
  Str.find s c = -1 ↔ Str.count s c = 0%nat.
Proof.
  rewrite <-index_None_count. unfold Str.find.
  destruct (Str.index s c); simpl; split; try done; lia.
Qed.

Lemma split_length (s : string) (c : ascii) :
  length (Str.split s c) = S (Str.count s c).
Proof.
  induction s as [|a s IH]; [done|]. simpl.
  destruct (decide (a = c)); simpl; [by rewrite IH|].
  destruct (Str.split s c); simpl in *; lia.
Qed.

Lemma split_none (s : string) (c : ascii) :
  Str.count s c = 0%nat → Str.split s c = [s].
Proof.
  induction s as [|a s IH]; [done|]. simpl.
  destruct (decide (a = c)); [done|]. intros H. by rewrite IH.
Qed.

Lemma split_app_first (s t : string) (c : ascii) :
  Str.count s c = 0%nat →
  Str.split (s +:+ String c t) c = s :: Str.split t c.
Proof.
  induction s as [|a s IH]; simpl.
  - intros _. by rewrite decide_True.
  - destruct (decide (a = c)); [done|]. intros H. by rewrite IH.
Qed.

(** The separator in front of a non-empty joined list distributes over
    its elements. *)
Lemma join_sep_foldr (sep tail : string) (l : list string) :
  (match l with [] => "" | _ => sep end) +:+ Str.join sep l +:+ tail
  = foldr (λ c acc, sep +:+ c +:+ acc) tail l.
Proof.
  destruct l as [|x l]; [done|]. simpl foldr.
  revert x. induction l as [|y l IH]; intros x; [done|].
  change (Str.join sep (x :: y :: l)) with (x +:+ sep +:+ Str.join sep (y :: l)).
  rewrite !str_app_assoc. do 2 f_equal. specialize (IH y).
  simpl foldr. by rewrite <-IH.
Qed.

Example slice_ex1 : Str.slice "ab(c, d)" (Some 3) (Some (-1)) = "c, d".
Proof. reflexivity. Qed.
Example slice_ex2 : Str.slice "" (Some (-1)) None = "".
Proof. reflexivity. Qed.
Example slice_ex3 : Str.slice "abc)" (Some (-1)) None = ")".
Proof. reflexivity. Qed.
Example partition_ex : Str.partition "operator @>(box, box)" " " = ("operator", " ", "@>(box, box)").
Proof. reflexivity. Qed.
Example partition_ex2 : Str.partition "operator" " " = ("operator", "", "").
Proof. reflexivity. Qed.
Example split_ex : Str.split "a,,b" "," = ["a"; ""; "b"].
Proof. reflexivity. Qed.
Example lstrip_ex : Str.lstrip "  	x y " = "x y ".
Proof. reflexivity. Qed.
Example lower_ex : Str.lower "OPERATOR" = "operator".
Proof. reflexivity. Qed.
Example find_ex : Str.find "@>(box)" "(" = 2 /\ Str.find "abc" "(" = -1.
Proof. split; reflexivity. Qed.

(** ** Operator.create *)

Lemma hasattr_lookup (o : attrs) (a : string) :
  hasattr o a = match o !! a with Some _ => true | None => false end.
Proof.
  unfold hasattr. destruct (o !! a) eqn:E.
  - by rewrite bool_decide_true.
  - rewrite bool_decide_false; [done|]. by intros [? ?].
Qed.

Lemma create_opt_clauses_filter (self : attrs) (leftarg rightarg : value) :
  self !! "leftarg" = Some leftarg →
  self !! "rightarg" = Some rightarg →
  create_opt_clauses self
  = Ok (snd <$> filter (λ c, c.1 = true) (optional_clauses self)).
Proof.
  intros Hl Hr. unfold create_opt_clauses, optional_clauses, getattr.
  rewrite !hasattr_lookup, Hl, Hr.
  cbn [mbind result_bind mret result_ret default from_option id].
  destruct (py_ne leftarg (VStr "NONE")), (py_ne rightarg (VStr "NONE")),
    (self !! "commutator"), (self !! "negator"), (self !! "restrict"),
    (self !! "join"); cbn [default from_option id];
    (destruct (self !! "hashes") as [h|];
       [cbn [default from_option id]; destruct (truthy h)|]);
    (destruct (self !! "merges") as [m|];
       [cbn [default from_option id]; destruct (truthy m)|]);
    reflexivity.
Qed.

(** C1: the statement that [create] returns lists PROCEDURE first, and
    then the optional clauses LEFTARG, RIGHTARG, COMMUTATOR, NEGATOR,
    RESTRICT, JOIN, HASHES, MERGES in this order; an operand clause is
    listed iff the operand is not NONE, a reference clause iff the
    attribute is present, a flag iff the attribute is present and true.
    PROCEDURE is mandatory: without the attribute no statement is
    returned. *)
Theorem create_clause_order (quote_id : value → result string) (self : attrs)
    (leftarg rightarg q : value) :
  self !! "leftarg" = Some leftarg →
  self !! "rightarg" = Some rightarg →
  qualname quote_id self = Ok q →
  create quote_id self =
    match self !! "procedure" with
    | Some procedure =>
        Ok [create_statement (str q) (str procedure) (optional_clauses self)]
    | None => Raise (AttributeError "procedure")
    end.
Proof.
  intros Hl Hr Hq. unfold create.
  rewrite (create_opt_clauses_filter _ _ _ Hl Hr), Hq.
  cbn [mbind result_bind]. unfold getattr.
  destruct (self !! "procedure") as [procedure|]; [|done].
  cbn [mret result_ret]. unfold create_statement.
  by rewrite join_sep_foldr.
Qed.

(** C1, instance: the operator of the docstring of [find], which has a
    commutator, a restrict function and the flag hashes. *)
Lemma create_clause_order_witness :
  hstore_ge !! "leftarg" = Some (VStr "hstore") ∧
  hstore_ge !! "rightarg" = Some (VStr "hstore") ∧
  qualname example_quote_id hstore_ge = Ok (VStr "#>=#") ∧
  create example_quote_id hstore_ge
  = Ok [create_statement "#>=#" "hstore_ge" (optional_clauses hstore_ge)].
Proof.
  split_and!; [reflexivity..|].
  apply (create_clause_order example_quote_id hstore_ge (VStr "hstore")
           (VStr "hstore") (VStr "#>=#")); reflexivity.
Defined.

Example create_hstore_ge :
  create example_quote_id hstore_ge
  = Ok ["CREATE OPERATOR #>=# (" +:+ nl +:+
        "    PROCEDURE = hstore_ge," +:+ nl +:+
        "    LEFTARG = hstore," +:+ nl +:+
        "    RIGHTARG = hstore," +:+ nl +:+
        "    COMMUTATOR = OPERATOR(#<=#)," +:+ nl +:+
        "    RESTRICT = contsel," +:+ nl +:+
        "    HASHES)"].
Proof. reflexivity. Qed.

Example create_no_operands :
  create example_quote_id no_operands
  = Ok ["CREATE OPERATOR ! (" +:+ nl +:+ "    PROCEDURE = now)"].
Proof. reflexivity. Qed.

(** ** OperatorDict.from_map: the key parser *)

Lemma endswith_app_cons (s t : string) (a c : ascii) :
  Str.endswith (s +:+ String a t) c = Str.endswith (String a t) c.
Proof.
  induction s as [|b s IH]; [done|].
  rewrite str_app_cons. cbn [Str.endswith]. rewrite IH.
  by destruct (s +:+ String a t) eqn:E; [destruct s|].
Qed.

Lemma partition_tag (opr : string) :
  Str.partition ("operator " +:+ opr) " " = ("operator", " ", opr).
Proof. reflexivity. Qed.

(** A key without the tag is rejected before anything else is looked
    at. *)
Lemma from_map_item_tag (schema_name : value) (key : string)
    (inoper : option attrs) (self : OperatorDict) :
  Str.startswith key "operator " = false →
  from_map_item schema_name key inoper self
  = (self, Raise (KeyError ("Unrecognized object type: " +:+ key))).
Proof.
  intros Htag. unfold from_map_item.
  destruct (Str.partition key " ") as [[objtype spc] opr] eqn:Hp.
  rewrite bool_decide_true; [done|].
  destruct (decide (spc = " ")) as [->|]; [|by left].
  right. intros ->.
  apply partition_sep in Hp as [[_ ->]|(? & _)]; [|done].
  pose proof (startswith_app "operator " opr) as Htag'.
  change ("operator " +:+ opr) with ("operator" +:+ String " " opr) in Htag'.
  congruence.
Qed.

(** A tagged key whose signature has no ( or does not end with ) is
    rejected next. *)
Lemma from_map_item_parens (schema_name : value) (opr : string)
    (inoper : option attrs) (self : OperatorDict) :
  Str.count opr "(" = 0%nat ∨ Str.endswith opr ")" = false →
  from_map_item schema_name ("operator " +:+ opr) inoper self
  = (self, Raise (KeyError ("Invalid operator signature: " +:+ opr))).
Proof.
  intros H. unfold from_map_item. rewrite partition_tag.
  rewrite bool_decide_false by (by intros [|]).
  rewrite bool_decide_true; [done|].
  destruct H as [H|H]; [left; by apply find_not_found|right].
  intros E%slice_last_endswith. congruence.
Qed.

(** A tagged key with a signature name(content) is parsed by splitting
    the content on its commas. *)
Lemma from_map_item_signature (schema_name : value) (name content : string)
    (inoper : option attrs) (self : OperatorDict) :
  Str.count name "(" = 0%nat →
  from_map_item schema_name ("operator " +:+ name +:+ "(" +:+ content +:+ ")")
    inoper self
  = match Str.split content "," with
    | [leftarg; rightarg] =>
        store_parsed schema_name name leftarg (Str.lstrip rightarg) inoper self
    | l => (self, Raise (UnpackError 2 (length l)))
    end.
Proof.
  intros Hname. unfold from_map_item. rewrite partition_tag.
  rewrite bool_decide_false by (by intros [|]).
  change (name +:+ "(" +:+ content +:+ ")")
    with (name +:+ String "(" (content +:+ String ")" "")).
  rewrite find_app_first by done.
  rewrite bool_decide_false; last first.
  { intros [?|H]; [lia|]. apply H, slice_last_endswith.
    rewrite endswith_app_cons.
    change (String "(" (content +:+ String ")" ""))
      with ("(" +:+ content +:+ String ")" "").
    rewrite <-str_app_assoc. apply endswith_app. }
  rewrite slice_between, slice_before.
  by destruct (Str.split content ",") as [|? [|? [|? ?]]].
Qed.

(** Every key that passes the two checks has this form. *)
Lemma signature_form (opr : string) :
  Str.count opr "(" ≠ 0%nat → Str.endswith opr ")" = true →
  ∃ name content,
    opr = name +:+ "(" +:+ content +:+ ")" ∧ Str.count name "(" = 0%nat.
Proof.
  intros Hc [t ->]%endswith_inv.
  destruct (Str.index (t +:+ ")") "(") as [i|] eqn:Hi;
    [|by apply index_None_count in Hi].
  assert (Str.count t "(" ≠ 0%nat) as Ht.
  { revert Hc. rewrite str_count_app. simpl. lia. }
  destruct (Str.index t "(") as [j|] eqn:Hj;
    [|by apply index_None_count in Hj].
  apply index_Some_split in Hj as (Hs & Hn & _).
  exists (Str.take j t), (Str.drop (S j) t). split; [|done].
  rewrite Hs at 1. by rewrite str_app_assoc.
Qed.

Lemma from_map_item_two_operands (schema_name : value) (name l r : string)
    (inoper : option attrs) (self : OperatorDict) :
  Str.count name "(" = 0%nat → Str.count l "," = 0%nat → Str.count r "," = 0%nat →
  from_map_item schema_name
    ("operator " +:+ name +:+ "(" +:+ (l +:+ "," +:+ r) +:+ ")") inoper self
  = store_parsed schema_name name l (Str.lstrip r) inoper self.
Proof.
  intros Hname Hl Hr. rewrite from_map_item_signature by done.
  change (l +:+ "," +:+ r) with (l +:+ String "," r).
  by rewrite split_app_first, split_none.
Qed.

Lemma new_operator_attrs (schema_name : value) (opr leftarg rightarg : string) :
  new_operator schema_name opr leftarg rightarg
  = <["schema" := schema_name]> (<["name" := VStr opr]>
      (<["leftarg" := VStr leftarg]> {["rightarg" := VStr rightarg]})).
Proof.
  unfold new_operator, Operator_init. apply map_filter_id.
  intros a v Hav Hflag. exfalso. simpl in Hflag.
  rewrite !elem_of_cons, elem_of_nil in Hflag.
  repeat (apply lookup_insert_Some in Hav as [[<- _]|[_ Hav]];
          [by destruct Hflag as [?|[?|[]]]|]).
  apply lookup_singleton_Some in Hav as [<- _]. by destruct Hflag as [?|[?|[]]].
Qed.

Lemma signature_slices (name content : string) :
  Str.count name "(" = 0%nat →
  let opr := name +:+ "(" +:+ content +:+ ")" in
  Str.slice opr None (Some (Str.find opr "(")) = name ∧
  Str.slice opr (Some (Str.find opr "(" + 1)) (Some (-1)) = content.
Proof.
  intros Hname opr. subst opr.
  change (name +:+ "(" +:+ content +:+ ")")
    with (name +:+ String "(" (content +:+ String ")" "")).
  rewrite find_app_first by done. by rewrite slice_between, slice_before.
Qed.

(** C4 (amended): the desired-state loader raises the Malformed-Key error
    for every key that does not start with the tag operator followed by a
    space, the Malformed-Signature error for every tagged key whose
    signature lacks a ( or does not end with ), and the
    Empty-Specification error for every key that passes these checks,
    holds exactly one comma between the parentheses, and maps to an empty
    or absent value.  Each is the outcome of the load of that key. *)
Theorem from_map_item_errors (schema_name : value) (key : string)
    (inoper : option attrs) (self : OperatorDict) :
  (Str.startswith key "operator " = false →
   from_map_item schema_name key inoper self
   = (self, Raise (KeyError ("Unrecognized object type: " +:+ key)))) ∧
  (∀ opr, key = "operator " +:+ opr →
     (Str.count opr "(" = 0%nat ∨ Str.endswith opr ")" = false →
      from_map_item schema_name key inoper self
      = (self, Raise (KeyError ("Invalid operator signature: " +:+ opr)))) ∧
     (Str.count opr "(" ≠ 0%nat → Str.endswith opr ")" = true →
      Str.count (Str.slice opr (Some (Str.find opr "(" + 1)) (Some (-1))) ","
        = 1%nat →
      spec_falsy inoper = true →
      (from_map_item schema_name key inoper self).2
      = Raise (ValueError
          ("Operator '" +:+ Str.slice opr None (Some (Str.find opr "("))
             +:+ "' has no specification")))).
Proof.
  split; [apply from_map_item_tag|].
  intros opr ->. split; [apply from_map_item_parens|].
  intros Hparen Hend Hcomma Hempty.
  destruct (signature_form opr Hparen Hend) as (name & content & -> & Hname).
  destruct (signature_slices name content Hname) as [Hn Hc].
  rewrite Hc in Hcomma. rewrite Hn. clear Hn Hc.
  rewrite from_map_item_signature by done.
  pose proof (split_length content ",") as Hlen. rewrite Hcomma in Hlen.
  destruct (Str.split content ",") as [|l [|r [|? ?]]]; try done.
  unfold store_parsed. by rewrite Hempty.
Qed.

(** C4, instances: a key with the tag function, a key without its
    closing parenthesis, and a well-formed key with an absent value. *)
Lemma from_map_item_errors_witness :
  from_map_item (VStr "public") "function foo(int,int)" None empty_dict
  = (empty_dict,
     Raise (KeyError "Unrecognized object type: function foo(int,int)")) ∧
  from_map_item (VStr "public") "operator @>(box,box" None empty_dict
  = (empty_dict, Raise (KeyError "Invalid operator signature: @>(box,box")) ∧
  (from_map_item (VStr "public") "operator @>(box,box)" None empty_dict).2
  = Raise (ValueError "Operator '@>' has no specification").
Proof.
  split_and!.
  - apply (from_map_item_errors (VStr "public") "function foo(int,int)").
    reflexivity.
  - apply (from_map_item_errors (VStr "public") "operator @>(box,box" None
             empty_dict); [reflexivity|]. right. reflexivity.
  - destruct (from_map_item_errors (VStr "public") "operator @>(box,box)" None
                empty_dict) as [_ H].
    destruct (H "@>(box,box)" eq_refl) as [_ H'].
    apply H'; [done|reflexivity..].
Defined.

(** C4, as stated, fails: the absent value of a key with one operand
    between the parentheses is not reached, and neither is the absent
    value of a key without the tag. *)
Lemma from_map_item_empty_spec_other_error :
  spec_falsy None = true ∧
  from_map_item (VStr "public") "operator @(box)" None empty_dict
  = (empty_dict, Raise (UnpackError 2 1)) ∧
  from_map_item (VStr "public") "function foo(int,int)" None empty_dict
  = (empty_dict,
     Raise (KeyError "Unrecognized object type: function foo(int,int)")).
Proof. split_and!; reflexivity. Qed.

(** C10: a key that passes the tag and parenthesis checks and does not
    hold exactly one comma between the parentheses makes the assignment
    to the pair (leftarg, rightarg) fail; the loader raises the error of
    the unpacking, not the Malformed-Signature error, and leaves the
    collection as it was. *)
Theorem from_map_item_unpack (schema_name : value) (key opr : string)
    (inoper : option attrs) (self : OperatorDict) :
  key = "operator " +:+ opr →
  Str.count opr "(" ≠ 0%nat → Str.endswith opr ")" = true →
  let content := Str.slice opr (Some (Str.find opr "(" + 1)) (Some (-1)) in
  Str.count content "," ≠ 1%nat →
  from_map_item schema_name key inoper self
  = (self, Raise (UnpackError 2 (S (Str.count content ",")))).
Proof.
  intros -> Hparen Hend content Hcomma. subst content.
  destruct (signature_form opr Hparen Hend) as (name & content & -> & Hname).
  destruct (signature_slices name content Hname) as [_ Hc].
  rewrite Hc in Hcomma |- *. clear Hc.
  rewrite from_map_item_signature by done.
  pose proof (split_length content ",") as Hlen.
  destruct (Str.split content ",") as [|l [|r [|? ?]]]; simpl in Hlen;
    try (exfalso; lia); by rewrite <-Hlen.
Qed.

(** C10, instances: one operand and three operands. *)
Lemma from_map_item_unpack_witness :
  from_map_item (VStr "public") "operator @(box)" None empty_dict
  = (empty_dict, Raise (UnpackError 2 1)) ∧
  from_map_item (VStr "public") "operator f(a,b,c)"
    (Some {["procedure" := VStr "f"]}) empty_dict
  = (empty_dict, Raise (UnpackError 2 3)).
Proof.
  split.
  - apply (from_map_item_unpack (VStr "public") "operator @(box)" "@(box)");
      [reflexivity|done|reflexivity|done].
  - apply (from_map_item_unpack (VStr "public") "operator f(a,b,c)" "f(a,b,c)");
      [reflexivity|done|reflexivity|done].
Defined.

Lemma new_operator_lookup (schema_name : value) (opr leftarg rightarg : string)
    (a : string) :
  new_operator schema_name opr leftarg rightarg !! a
  = if decide (a = "schema") then Some schema_name
    else if decide (a = "name") then Some (VStr opr)
    else if decide (a = "leftarg") then Some (VStr leftarg)
    else if decide (a = "rightarg") then Some (VStr rightarg)
    else None.
Proof.
  rewrite new_operator_attrs. repeat case_decide; simplify_map_eq; done.
Qed.

Lemma key_new_operator (schema_name : value) (opr leftarg rightarg : string) :
  key (new_operator schema_name opr leftarg rightarg)
  = Ok [schema_name; VStr opr; VStr leftarg; VStr rightarg].
Proof.
  unfold key, keylist, getattr. cbn [mapM]. by rewrite !new_operator_lookup.
Qed.

Lemma from_map_cons (schema_name : value) (key : string)
    (inoper : option attrs) (rest : list (string * option attrs))
    (self : OperatorDict) :
  from_map schema_name ((key, inoper) :: rest) self
  = match from_map_item schema_name key inoper self with
    | (self', Ok _) => from_map schema_name rest self'
    | (self', Raise e) => (self', Raise e)
    end.
Proof. reflexivity. Qed.

(** C9: the new operator is stored under its key before the
    specification is checked.  When a key with an empty specification is
    reached, the load stops with the Empty-Specification error and the
    collection holds the operator with its four key attributes and
    nothing else: the load is not atomic. *)
Theorem from_map_not_atomic (schema_name : value) (name l r : string)
    (inoper : option attrs) (rest : list (string * option attrs))
    (self : OperatorDict) :
  Str.count name "(" = 0%nat → Str.count l "," = 0%nat → Str.count r "," = 0%nat →
  spec_falsy inoper = true →
  let k := [schema_name; VStr name; VStr l; VStr (Str.lstrip r)] in
  let oper := new_operator schema_name name l (Str.lstrip r) in
  ∃ self',
    from_map schema_name
      (("operator " +:+ name +:+ "(" +:+ (l +:+ "," +:+ r) +:+ ")", inoper) :: rest)
      self
    = (self', Raise (ValueError ("Operator '" +:+ name +:+ "' has no specification"))) ∧
    items self' !! tkey k = Some oper ∧
    key oper = Ok k ∧
    (∀ a, a ∉ keylist → oper !! a = None).
Proof.
  intros Hname Hl Hr Hempty k oper. exists (setitem k oper self).
  rewrite from_map_cons, from_map_item_two_operands by done.
  unfold store_parsed. rewrite Hempty. split_and!.
  - done.
  - apply lookup_insert_eq.
  - apply key_new_operator.
  - intros a Ha. subst oper. rewrite new_operator_lookup.
    unfold keylist in Ha. rewrite !elem_of_cons, elem_of_nil in Ha.
    repeat case_decide; tauto.
Qed.

(** C9, instance: the key of the specification's example with an absent
    value, loaded into an empty collection. *)
Lemma from_map_not_atomic_witness :
  ∃ self',
    from_map (VStr "public") [("operator @>(box,box)", None)] empty_dict
    = (self', Raise (ValueError "Operator '@>' has no specification")) ∧
    items self' !! tkey [VStr "public"; VStr "@>"; VStr "box"; VStr "box"]
    = Some (new_operator (VStr "public") "@>" "box" "box") ∧
    key (new_operator (VStr "public") "@>" "box" "box")
    = Ok [VStr "public"; VStr "@>"; VStr "box"; VStr "box"] ∧
    (∀ a, a ∉ keylist → new_operator (VStr "public") "@>" "box" "box" !! a = None).
Proof.
  apply (from_map_not_atomic (VStr "public") "@>" "box" "box" None [] empty_dict);
    reflexivity.
Defined.

(** ** Operator.extern_key *)

Lemma extern_key_str (self : attrs) (name leftarg rightarg : value) :
  self !! "name" = Some name → self !! "leftarg" = Some leftarg →
  self !! "rightarg" = Some rightarg →
  extern_key self
  = Ok ("operator " +:+ str name +:+ "(" +:+ str leftarg +:+ ", "
          +:+ str rightarg +:+ ")").
Proof. intros Hn Hl Hr. unfold extern_key, getattr. by rewrite Hn, Hl, Hr. Qed.

(** C2 (amended): for an operator whose name holds no (, whose operand
    types hold no comma and whose right operand type does not start with
    whitespace, the key that [extern_key] returns is parsed by the
    desired-state loader, with the operator's schema as the owning
    schema, into the operator's own tuple (schema, name, leftarg,
    rightarg). *)
Theorem extern_key_roundtrip (self : attrs) (schema : value) (name l r : string)
    (inoper : option attrs) (d : OperatorDict) :
  self !! "schema" = Some schema → self !! "name" = Some (VStr name) →
  self !! "leftarg" = Some (VStr l) → self !! "rightarg" = Some (VStr r) →
  Str.count name "(" = 0%nat → Str.count l "," = 0%nat → Str.count r "," = 0%nat →
  Str.lstrip r = r →
  ∃ k, extern_key self = Ok k ∧
       from_map_item schema k inoper d = store_parsed schema name l r inoper d ∧
       key (new_operator schema name l r) = key self.
Proof.
  intros Hs Hn Hl Hr Hname Hcl Hcr Hstrip.
  eexists. split; [by apply extern_key_str|]. split.
  - assert ("operator " +:+ str (VStr name) +:+ "(" +:+ str (VStr l) +:+ ", "
              +:+ str (VStr r) +:+ ")"
            = "operator " +:+ name +:+ "(" +:+ (l +:+ "," +:+ (" " +:+ r)) +:+ ")")
      as ->.
    { rewrite (str_app_assoc l ("," +:+ " " +:+ r) ")"). reflexivity. }
    rewrite from_map_item_two_operands by done.
    change (Str.lstrip (" " +:+ r)) with (Str.lstrip r). by rewrite Hstrip.
  - rewrite key_new_operator. unfold key, keylist, getattr. cbn [mapM].
    by rewrite Hs, Hn, Hl, Hr.
Qed.

(** C2, instance: the operator of the docstring of [find]. *)
Lemma extern_key_roundtrip_witness :
  ∃ k, extern_key hstore_ge = Ok k ∧
       from_map_item (VStr "public") k None empty_dict
       = store_parsed (VStr "public") "#>=#" "hstore" "hstore" None empty_dict ∧
       key (new_operator (VStr "public") "#>=#" "hstore" "hstore") = key hstore_ge.
Proof.
  apply (extern_key_roundtrip hstore_ge (VStr "public") "#>=#" "hstore" "hstore");
    reflexivity.
Defined.

(** C2, as stated, fails: the key of an operator whose left operand type
    holds a comma is not parsed into the operator's tuple; the loader
    raises the error of the unpacking and stores nothing. *)
Lemma extern_key_comma_operand :
  extern_key comma_operand = Ok "operator +(a,b, c)" ∧
  from_map_item (VStr "public") "operator +(a,b, c)"
    (Some {["procedure" := VStr "plus"]}) empty_dict
  = (empty_dict, Raise (UnpackError 2 3)).
Proof. split; reflexivity. Qed.

(** ** Operator.qualname and Operator.identifier *)

Section Qualname.

Variable quote_id : value → result string.

Lemma qualname_public (self : attrs) (name : value) :
  self !! "schema" = Some (VStr "public") → self !! "name" = Some name →
  truthy name = true →
  qualname quote_id self = Ok name.
Proof.
  intros Hs Hn Ht. unfold qualname, getattr. rewrite Hs, Hn. simpl.
  by rewrite Ht.
Qed.

Lemma qualname_qualified (self : attrs) (schema name : value) (q : string) :
  self !! "schema" = Some schema → self !! "name" = Some name →
  py_eq schema (VStr "public") = false → quote_id schema = Ok q →
  qualname quote_id self = Ok (VStr (q +:+ "." +:+ str name)).
Proof.
  intros Hs Hn Hp Hq. unfold qualname, getattr. rewrite Hs, Hn. simpl.
  by rewrite Hp, Hq.
Qed.

Lemma identifier_qualname (self : attrs) (q leftarg rightarg : value) :
  qualname quote_id self = Ok q → self !! "leftarg" = Some leftarg →
  self !! "rightarg" = Some rightarg →
  identifier quote_id self
  = Ok (str q +:+ "(" +:+ str leftarg +:+ ", " +:+ str rightarg +:+ ")").
Proof. intros Hq Hl Hr. unfold identifier, getattr. by rewrite Hq, Hl, Hr. Qed.

Example identifier_hstore_ge :
  qualname quote_id hstore_ge = Ok (VStr "#>=#") ∧
  identifier quote_id hstore_ge = Ok "#>=#(hstore, hstore)".
Proof. split; reflexivity. Qed.

(** C5, at the operator of schema public with the empty name: [qualname]
    does not return the bare name.  The empty name is falsy, so the
    expression [a and b or c] goes on to its last operand and qualifies
    the name with the quoted schema. *)
Theorem qualname_public_empty_name :
  unnamed !! "schema" = Some (VStr "public") ∧
  unnamed !! "name" = Some (VStr "") ∧
  qualname quote_id unnamed
  = (q ← quote_id (VStr "public"); mret (VStr (q +:+ "."))) ∧
  qualname quote_id unnamed ≠ Ok (VStr "").
Proof.
  split_and!; try reflexivity.
  assert (qualname quote_id unnamed
          = (q ← quote_id (VStr "public"); mret (VStr (q +:+ ".")))) as ->
    by reflexivity.
  destruct (quote_id (VStr "public")) as [q|e]; [|done].
  intros [= Hq]. destruct q; discriminate Hq.
Qed.

End Qualname.

(** ** Operator.get_implied_deps *)

Lemma py_ne_str (a b : string) : py_ne (VStr a) (VStr b) = bool_decide (a ≠ b).
Proof.
  unfold py_ne, py_eq. simpl. destruct (decide (a = b)) as [->|Hne].
  - by rewrite bool_decide_true, bool_decide_false by auto.
  - rewrite bool_decide_false, bool_decide_true by congruence. done.
Qed.

Lemma join_values_operands (l r : string) :
  join_values ", " (filter (λ t, py_ne t (VStr "NONE") = true) [VStr l; VStr r])
  = Ok (argtypes l r).
Proof.
  unfold argtypes. rewrite !filter_cons, !filter_nil, !py_ne_str.
  repeat case_decide; try reflexivity; exfalso;
    rewrite ?bool_decide_eq_true in *; tauto.
Qed.

Section Deps.

Variable split_schema_obj : value → option value → result (value * value).

(** The last step of [get_implied_deps], from the set [deps] built so
    far. *)
Lemma get_implied_deps_restrict (self : attrs) (db : Db) (deps0 : gset DbObject) :
  (∀ v, self !! "restrict" = Some v → truthy v = true →
        is_Ok (split_schema_obj v None)) →
  ∃ deps : gset DbObject,
    (let restrict := default VNone (self !! "restrict") in
     if truthy restrict then
       '(fschema, fname) ← split_schema_obj restrict None;
       match dict_get (functions db) [fschema; fname; VStr restrict_args] with
       | Some f => mret (deps0 ∪ {[FunctionObj f]})
       | None => mret deps0
       end
     else mret deps0) = Ok deps ∧
    ∀ x, x ∈ deps ↔
      x ∈ deps0 ∨ ∃ f, x = FunctionObj f ∧ restrict_found split_schema_obj self db f.
Proof.
  intros Hrestrict. unfold restrict_found, dict_get.
  destruct (self !! "restrict") as [v|] eqn:Hv; cbn [default from_option id];
    [destruct (truthy v) eqn:Htv|].
  - destruct (Hrestrict v eq_refl Htv) as [[rs rn] Hrs]. rewrite Hrs.
    cbn [mbind result_bind].
    destruct (functions db !! tkey [rs; rn; VStr restrict_args]) as [f|] eqn:Hf;
      eexists; (split; [reflexivity|]); intros x.
    + rewrite elem_of_union, elem_of_singleton. split.
      * intros [?| ->]; [by left|right]. exists f. split; [done|].
        by exists v, rs, rn.
      * intros [?|(f' & -> & v' & rs' & rn' & [= <-] & _ & Hrs' & Hf')];
          [by left|right]. congruence.
    + split; [by left|].
      intros [?|(f' & -> & v' & rs' & rn' & [= <-] & _ & Hrs' & Hf')];
        [done|congruence].
  - eexists; split; [reflexivity|]. intros x. split; [by left|].
    intros [?|(f' & -> & v' & rs' & rn' & [= <-] & Htv' & _)]; [done|congruence].
  - eexists; split; [reflexivity|]. intros x. split; [by left|].
    by intros [?|(f' & -> & v' & rs' & rn' & ? & _)].
Qed.

Lemma get_implied_deps_elem (super_deps : gset DbObject) (self : attrs)
    (db : Db) (l r : string) (procedure schema fschema fname : value) :
  self !! "leftarg" = Some (VStr l) → self !! "rightarg" = Some (VStr r) →
  self !! "procedure" = Some procedure → self !! "schema" = Some schema →
  split_schema_obj procedure (Some schema) = Ok (fschema, fname) →
  (∀ v, self !! "restrict" = Some v → truthy v = true →
        is_Ok (split_schema_obj v None)) →
  ∃ deps,
    get_implied_deps split_schema_obj super_deps self db = Ok deps ∧
    ∀ x, x ∈ deps ↔
      x ∈ super_deps ∨
      (∃ t, x = TypeObj t ∧
            (types_find db (VStr l) = Some t ∨ types_find db (VStr r) = Some t)) ∨
      (∃ f, x = FunctionObj f ∧
            functions db !! tkey [fschema; fname; VStr (argtypes l r)] = Some f) ∨
      (∃ f, x = FunctionObj f ∧ restrict_found split_schema_obj self db f).
Proof.
  intros Hl Hr Hp Hs Hsplit Hrestrict.
  unfold get_implied_deps, getattr. rewrite Hl, Hr, Hp, Hs.
  cbn [mbind result_bind]. rewrite Hsplit. cbn [mbind result_bind].
  rewrite join_values_operands. cbn [mbind result_bind].
  unfold dict_contains, dict_getitem. fold restrict_args.
  destruct (functions db !! tkey [fschema; fname; VStr (argtypes l r)])
    as [func|] eqn:Hfunc.
  - rewrite bool_decide_true by eauto. cbn [mbind result_bind mret result_ret].
    edestruct (get_implied_deps_restrict self db) as (deps & -> & Hdeps);
      [exact Hrestrict|].
    exists deps. split; [done|]. intros x. rewrite Hdeps.
    destruct (types_find db (VStr l)), (types_find db (VStr r));
      set_unfold; naive_solver.
  - rewrite bool_decide_false by (by intros [? ?]).
    cbn [mbind result_bind mret result_ret].
    edestruct (get_implied_deps_restrict self db) as (deps & -> & Hdeps);
      [exact Hrestrict|].
    exists deps. split; [done|]. intros x. rewrite Hdeps.
    destruct (types_find db (VStr l)), (types_find db (VStr r));
      set_unfold; naive_solver.
Qed.

(** C6 (amended): [get_implied_deps] resolves the procedure by splitting
    it into schema and name and looking up (schema, name, argument types)
    in the functions collection, where the argument types are the operand
    types that are not NONE joined with a comma and a space; the function
    is added only if found.  A restrict attribute that holds a value is
    resolved with the argument signature internal, oid, internal, integer
    and added only if found.  When both operands are NONE the procedure is
    looked up with the empty argument list, and no type is added for the
    operands provided that the types collection has no type of the name
    NONE. *)
Theorem get_implied_deps_resolution (super_deps : gset DbObject) (self : attrs)
    (db : Db) (l r : string) (procedure schema fschema fname : value) :
  self !! "leftarg" = Some (VStr l) → self !! "rightarg" = Some (VStr r) →
  self !! "procedure" = Some procedure → self !! "schema" = Some schema →
  split_schema_obj procedure (Some schema) = Ok (fschema, fname) →
  (∀ v, self !! "restrict" = Some v → truthy v = true →
        is_Ok (split_schema_obj v None)) →
  ∃ deps,
    get_implied_deps split_schema_obj super_deps self db = Ok deps ∧
    (∀ f, FunctionObj f ∈ deps ↔
       FunctionObj f ∈ super_deps ∨
       functions db !! tkey [fschema; fname; VStr (argtypes l r)] = Some f ∨
       restrict_found split_schema_obj self db f) ∧
    (l = "NONE" → r = "NONE" →
     argtypes l r = "" ∧
     (types_find db (VStr "NONE") = None →
      ∀ t, TypeObj t ∈ deps → TypeObj t ∈ super_deps)).
Proof.
  intros Hl Hr Hp Hs Hsplit Hrestrict.
  destruct (get_implied_deps_elem super_deps self db l r procedure schema
              fschema fname) as (deps & Hdeps & Helem); try done.
  exists deps. split_and!; [done| |].
  - intros f. rewrite Helem. split.
    + intros [?|[(t & [=] & _)|[(f' & [= <-] & ?)|(f' & [= <-] & ?)]]]; auto.
    + intros [?|[?|?]]; eauto 8.
  - intros -> ->. split; [reflexivity|]. intros Hnone t.
    rewrite Helem.
    intros [?|[(t' & [= <-] & [?|?])|[(f' & [=] & _)|(f' & [=] & _)]]];
      [done|congruence..].
Qed.

(** C7: [get_implied_deps] returns a set, which holds no object twice and
    holds no operator unless the base class put it there, so never the
    operator itself; and whatever the types and functions collections
    hold it returns normally: a lookup that misses adds nothing and
    raises nothing. *)
Theorem get_implied_deps_tolerant (super_deps : gset DbObject) (self : attrs)
    (db : Db) (l r : string) (procedure schema fschema fname : value) :
  self !! "leftarg" = Some (VStr l) → self !! "rightarg" = Some (VStr r) →
  self !! "procedure" = Some procedure → self !! "schema" = Some schema →
  split_schema_obj procedure (Some schema) = Ok (fschema, fname) →
  (∀ v, self !! "restrict" = Some v → truthy v = true →
        is_Ok (split_schema_obj v None)) →
  ∃ deps,
    get_implied_deps split_schema_obj super_deps self db = Ok deps ∧
    NoDup (elements deps) ∧
    (∀ id, OperatorObj id ∉ super_deps → OperatorObj id ∉ deps) ∧
    (types_find db (VStr l) = None → types_find db (VStr r) = None →
     functions db !! tkey [fschema; fname; VStr (argtypes l r)] = None →
     (∀ f, ¬ restrict_found split_schema_obj self db f) →
     deps = super_deps).
Proof.
  intros Hl Hr Hp Hs Hsplit Hrestrict.
  destruct (get_implied_deps_elem super_deps self db l r procedure schema
              fschema fname) as (deps & Hdeps & Helem); try done.
  exists deps. split_and!; [done|apply NoDup_elements| |].
  - intros id Hid. rewrite Helem.
    by intros [?|[(t & [=] & _)|[(f' & [=] & _)|(f' & [=] & _)]]].
  - intros Htl Htr Hf Hrs. apply set_eq. intros x. rewrite Helem. split; [|auto].
    intros [?|[(t & _ & [?|?])|[(f' & _ & ?)|(f' & _ & ?)]]];
      [done|congruence..|]. by destruct (Hrs f').
Qed.

End Deps.

(** C6, instances: the operator of the docstring of [find] in a database
    that has its procedure, and an operator without operands. *)
Lemma get_implied_deps_resolution_witness :
  (∃ deps,
     get_implied_deps example_split_schema_obj ∅ hstore_ge hstore_db = Ok deps ∧
     (∀ f, FunctionObj f ∈ deps ↔
        FunctionObj f ∈ (∅ : gset DbObject) ∨
        functions hstore_db
          !! tkey [VStr "public"; VStr "hstore_ge"; VStr "hstore, hstore"] = Some f ∨
        restrict_found example_split_schema_obj hstore_ge hstore_db f)) ∧
  (∃ deps,
     get_implied_deps example_split_schema_obj ∅ no_operands now_db = Ok deps ∧
     functions now_db !! tkey [VStr "public"; VStr "now"; VStr (argtypes "NONE" "NONE")]
       = Some 9%positive ∧
     ∀ t, TypeObj t ∈ deps → TypeObj t ∈ (∅ : gset DbObject)).
Proof.
  split.
  - destruct (get_implied_deps_resolution example_split_schema_obj ∅ hstore_ge
                hstore_db "hstore" "hstore" (VStr "hstore_ge") (VStr "public")
                (VStr "public") (VStr "hstore_ge"))
      as (deps & Hdeps & Hfun & _); try reflexivity.
    { intros v _ _. by eexists. }
    exists deps. split; [exact Hdeps|exact Hfun].
  - destruct (get_implied_deps_resolution example_split_schema_obj ∅ no_operands
                now_db "NONE" "NONE" (VStr "now") (VStr "public")
                (VStr "public") (VStr "now"))
      as (deps & Hdeps & _ & Hnone); try reflexivity.
    { intros v _ _. by eexists. }
    exists deps. split_and!; [exact Hdeps|reflexivity|].
    apply Hnone; reflexivity.
Defined.

(** C6, as stated, fails: the operands are looked up in the types
    collection also when they are NONE, so an operator without operands
    depends on a type that has the name NONE. *)
Lemma get_implied_deps_none_type :
  no_operands !! "leftarg" = Some (VStr "NONE") ∧
  no_operands !! "rightarg" = Some (VStr "NONE") ∧
  get_implied_deps example_split_schema_obj ∅ no_operands none_type_db
  = Ok {[TypeObj 3]} ∧
  TypeObj 3 ∉ (∅ : gset DbObject).
Proof.
  split_and!; [reflexivity..| |apply not_elem_of_empty].
  vm_compute. reflexivity.
Qed.

(** C7, instance: the operator of the docstring of [find] in a database
    without types and functions, where every lookup misses. *)
Lemma get_implied_deps_tolerant_witness :
  ∃ deps,
    get_implied_deps example_split_schema_obj {[OtherObj 1]} hstore_ge empty_db
      = Ok deps ∧
    NoDup (elements deps) ∧ (OperatorObj 5 ∉ deps) ∧ deps = {[OtherObj 1]}.
Proof.
  destruct (get_implied_deps_tolerant example_split_schema_obj {[OtherObj 1]}
              hstore_ge empty_db "hstore" "hstore" (VStr "hstore_ge")
              (VStr "public") (VStr "public") (VStr "hstore_ge"))
    as (deps & Hdeps & Hnodup & Hself & Hmiss); try reflexivity.
  { intros v _ _. by eexists. }
  exists deps. split_and!; [exact Hdeps|exact Hnodup| |].
  - apply Hself. by intros [=]%elem_of_singleton.
  - apply Hmiss; try reflexivity.
    intros f (v & fs & fn & _ & _ & _ & Hf). simpl in Hf.
    by rewrite lookup_empty in Hf.
Defined.

(** ** OperatorDict._from_catalog *)

Lemma lookup_none_operand (a b : string) (row : attrs) :
  none_operand a row !! b
  = if decide (a = b)
    then (λ v, if py_eq v (VStr "-") then VStr "NONE" else v) <$> row !! a
    else row !! b.
Proof.
  unfold none_operand. case_decide as Hab; [subst b|].
  - destruct (row !! a) as [v|] eqn:Hv; [|by rewrite Hv].
    simpl. destruct (py_eq v (VStr "-")); [by rewrite lookup_insert_eq|].
    by rewrite Hv.
  - destruct (row !! a) as [v|]; [|done].
    destruct (py_eq v (VStr "-")); [by rewrite lookup_insert_ne|done].
Qed.

Lemma lookup_drop_marker (marker a b : string) (row : attrs) :
  drop_marker marker a row !! b
  = if decide (a = b)
    then v ← row !! a; if py_eq v (VStr marker) then None else Some v
    else row !! b.
Proof.
  unfold drop_marker. case_decide as Hab; [subst b|].
  - destruct (row !! a) as [v|] eqn:Hv; [|by rewrite Hv].
    simpl. destruct (py_eq v (VStr marker)); [by rewrite lookup_delete_eq|].
    by rewrite Hv.
  - destruct (row !! a) as [v|]; [|done].
    destruct (py_eq v (VStr marker)); [by rewrite lookup_delete_ne|done].
Qed.

Lemma lookup_Operator_init (kwargs : attrs) (a : string) :
  Operator_init kwargs !! a
  = if decide (a ∈ ["hashes"; "merges"])
    then v ← kwargs !! a; if truthy v then Some v else None
    else kwargs !! a.
Proof.
  unfold Operator_init. rewrite map_lookup_filter.
  destruct (kwargs !! a) as [v|]; simpl; [|by case_decide].
  case_decide as Ha.
  - destruct (truthy v) eqn:Hv.
    + by rewrite option_guard_True.
    + rewrite option_guard_False; [done|]. intros H. specialize (H Ha). congruence.
  - by rewrite option_guard_True.
Qed.

(** The step of the loop that removes a reference. *)
Lemma delattr_step (oper : attrs) (marker a : string) (v : value) :
  oper !! a = Some v →
  (if py_eq v (VStr marker) then delattr oper a else mret oper)
  = Ok (drop_marker marker a oper).
Proof.
  intros Hv. unfold delattr, drop_marker. rewrite Hv.
  by destruct (py_eq v (VStr marker)).
Qed.

Lemma setattr_step (oper : attrs) (a : string) (v : value) :
  oper !! a = Some v →
  (if py_eq v (VStr "-") then (VStr "NONE", setattr a (VStr "NONE") oper)
   else (v, oper))
  = (if py_eq v (VStr "-") then VStr "NONE" else v, none_operand a oper).
Proof.
  intros Hv. unfold none_operand, setattr. rewrite Hv.
  by destruct (py_eq v (VStr "-")).
Qed.

Lemma complete_row_lookup (row : attrs) (a : string) :
  complete_row row = true →
  a ∈ ["oid"; "schema"; "name"; "leftarg"; "rightarg"; "commutator"; "negator";
       "restrict"; "join"] →
  is_Some (row !! a).
Proof.
  unfold complete_row. rewrite forallb_forall. intros H Ha.
  apply list_elem_of_In, H in Ha. unfold hasattr in Ha.
  by apply bool_decide_eq_true in Ha.
Qed.

(** The loop body builds the operator that the normalization of the
    specification describes, under the key of the normalized operands. *)
Lemma from_catalog_row_normalize (row : attrs) :
  complete_row row = true →
  ∃ oid, row !! "oid" = Some oid ∧
         from_catalog_row row = Ok (oid, catalog_key row, normalize_row row).
Proof.
  intros Hrow.
  destruct (complete_row_lookup row "oid" Hrow) as [oid Hoid];
    [set_solver|].
  destruct (complete_row_lookup row "schema" Hrow) as [sch Hsch];
    [set_solver|].
  destruct (complete_row_lookup row "name" Hrow) as [opr Hopr];
    [set_solver|].
  destruct (complete_row_lookup row "leftarg" Hrow) as [lft Hlft];
    [set_solver|].
  destruct (complete_row_lookup row "rightarg" Hrow) as [rgt Hrgt];
    [set_solver|].
  destruct (complete_row_lookup row "commutator" Hrow) as [com Hcom];
    [set_solver|].
  destruct (complete_row_lookup row "negator" Hrow) as [neg Hneg];
    [set_solver|].
  destruct (complete_row_lookup row "restrict" Hrow) as [res Hres];
    [set_solver|].
  destruct (complete_row_lookup row "join" Hrow) as [jn Hjn];
    [set_solver|].
  exists oid. split; [done|].
  unfold from_catalog_row, key, keylist, catalog_key, normalize_row, getattr.
  rewrite Hoid. cbn [mbind result_bind mapM]. rewrite Hsch, Hopr, Hlft, Hrgt.
  cbn [mbind result_bind mret result_ret default from_option id].
  rewrite (setattr_step row "leftarg" lft Hlft).
  set (o1 := none_operand "leftarg" row).
  assert (o1 !! "rightarg" = Some rgt) as H1
    by (subst o1; by rewrite lookup_none_operand, decide_False).
  rewrite (setattr_step o1 "rightarg" rgt H1).
  set (o2 := none_operand "rightarg" o1).
  assert (∀ a, a ≠ "leftarg" → a ≠ "rightarg" → o2 !! a = row !! a) as H2.
  { intros a ??. subst o2 o1.
    by rewrite !lookup_none_operand, !decide_False. }
  rewrite (H2 "commutator"), Hcom by done. cbn [mbind result_bind].
  rewrite (delattr_step o2 "0" "commutator" com) by (by rewrite H2).
  cbn [mbind result_bind].
  set (o3 := drop_marker "0" "commutator" o2).
  assert (o3 !! "negator" = Some neg) as H3
    by (subst o3; by rewrite lookup_drop_marker, decide_False, H2).
  rewrite H3. cbn [mbind result_bind].
  rewrite (delattr_step o3 "0" "negator" neg H3). cbn [mbind result_bind].
  set (o4 := drop_marker "0" "negator" o3).
  assert (∀ a, a ≠ "commutator" → a ≠ "negator" → o4 !! a = o2 !! a) as H4.
  { intros a ??. subst o4 o3.
    by rewrite !lookup_drop_marker, !decide_False. }
  rewrite (H4 "restrict"), H2, Hres by done. cbn [mbind result_bind].
  rewrite (delattr_step o4 "-" "restrict" res) by (by rewrite H4, H2).
  cbn [mbind result_bind].
  set (o5 := drop_marker "-" "restrict" o4).
  assert (o5 !! "join" = Some jn) as H5
    by (subst o5; by rewrite lookup_drop_marker, decide_False, H4, H2).
  rewrite H5. cbn [mbind result_bind].
  rewrite (delattr_step o5 "-" "join" jn H5).
  reflexivity.
Qed.

Lemma normalize_row_lookup (row : attrs) (a : string) :
  normalize_row row !! a
  = if decide (a ∈ ["leftarg"; "rightarg"])
    then (λ v, if py_eq v (VStr "-") then VStr "NONE" else v) <$> row !! a
    else if decide (a ∈ ["commutator"; "negator"])
    then v ← row !! a; if py_eq v (VStr "0") then None else Some v
    else if decide (a ∈ ["restrict"; "join"])
    then v ← row !! a; if py_eq v (VStr "-") then None else Some v
    else if decide (a ∈ ["hashes"; "merges"])
    then v ← row !! a; if truthy v then Some v else None
    else row !! a.
Proof.
  unfold normalize_row.
  rewrite lookup_Operator_init, !lookup_drop_marker, !lookup_none_operand.
  repeat case_decide; subst; try done;
    repeat match goal with
    | H : _ ∈ _ |- _ => rewrite !elem_of_cons, elem_of_nil in H
    | H : ¬ _ ∈ _ |- _ => rewrite !elem_of_cons, elem_of_nil in H
    end; try (exfalso; intuition congruence).
Qed.

Lemma normalize_row_loaded (row : attrs) : loaded row (normalize_row row).
Proof.
  unfold loaded, operand_loaded, reference_loaded, flag_loaded.
  rewrite !normalize_row_lookup. split_and!.
  - intros v Hv. rewrite Hv. by rewrite decide_True by set_solver.
  - intros v Hv. rewrite Hv. by rewrite decide_True by set_solver.
  - intros v Hv. rewrite Hv. done.
  - intros v Hv. rewrite Hv. done.
  - intros v Hv. rewrite Hv. done.
  - intros v Hv. rewrite Hv. done.
  - destruct (row !! "hashes"); done.
  - destruct (row !! "merges"); done.
Qed.

Lemma from_catalog_cons (oper : attrs) (rows : list attrs) (self : OperatorDict) :
  _from_catalog (oper :: rows) self
  = match from_catalog_row oper with
    | Ok (oid, k, new) =>
        _from_catalog rows (set_by_oid oid new (setitem k new self))
    | Raise e => (self, Raise e)
    end.
Proof. reflexivity. Qed.

(** The loader never removes a key. *)
Lemma from_catalog_keys (rows : list attrs) (self self' : OperatorDict)
    (r : result ()) (k : list value) :
  _from_catalog rows self = (self', r) →
  is_Some (items self !! k) → is_Some (items self' !! k).
Proof.
  revert self. induction rows as [|row rows IH]; intros self.
  { by intros [= <- _]. }
  rewrite from_catalog_cons.
  destruct (from_catalog_row row) as [[[oid k'] new]|e]; [|by intros [= <- _]].
  intros Hload Hk. apply (IH _ Hload). simpl.
  rewrite lookup_insert_is_Some. destruct (decide (tkey k' = k)); auto.
Qed.

(** C3: the catalog loader loads every row; every operator it stores
    comes from a row and is stored under the key of that row, with a left
    or right operand [-] stored as NONE, a commutator or negator [0]
    absent, a restrict or join [-] absent, and the flags hashes and merges
    stored only if true. *)
Theorem from_catalog_loaded (rows : list attrs) (self : OperatorDict) :
  forallb complete_row rows = true →
  ∃ self',
    _from_catalog rows self = (self', Ok ()) ∧
    (∀ row, row ∈ rows → is_Some (items self' !! tkey (catalog_key row))) ∧
    (∀ k new, items self' !! k = Some new →
       items self !! k = Some new ∨
       ∃ row, row ∈ rows ∧ k = tkey (catalog_key row) ∧ loaded row new) ∧
    (∀ oid new, by_oid self' !! oid = Some new →
       by_oid self !! oid = Some new ∨
       ∃ row, row ∈ rows ∧ hashable <$> row !! "oid" = Some oid ∧ loaded row new).
Proof.
  revert self. induction rows as [|row rows IH]; intros self Hrows.
  { exists self. split_and!; [done| |by left..]. by intros row ?%elem_of_nil. }
  simpl in Hrows. apply andb_true_iff in Hrows as [Hrow Hrows].
  destruct (from_catalog_row_normalize row Hrow) as (oid & Hoid & Heq).
  rewrite from_catalog_cons, Heq.
  destruct (IH (set_by_oid oid (normalize_row row)
                  (setitem (catalog_key row) (normalize_row row) self)) Hrows)
    as (self' & Hload & Hall & Hitems & Hoids).
  exists self'. split_and!; [done| | |].
  - intros row' [->|Hin]%elem_of_cons; [|by apply Hall].
    apply (from_catalog_keys _ _ _ _ _ Hload). simpl.
    rewrite lookup_insert_eq. eauto.
  - intros k new [Hk|(row' & Hin & -> & Hl)]%Hitems.
    + simpl in Hk. apply lookup_insert_Some in Hk as [[<- <-]|[_ Hk]]; [|by left].
      right. exists row. split_and!; [by left|done|apply normalize_row_loaded].
    + right. exists row'. split_and!; [by right|done..].
  - intros o new [Ho|(row' & Hin & Hoid' & Hl)]%Hoids.
    + simpl in Ho. apply lookup_insert_Some in Ho as [[<- <-]|[_ Ho]]; [|by left].
      right. exists row. split_and!; [by left|by rewrite Hoid|apply normalize_row_loaded].
    + right. exists row'. split_and!; [by right|done..].
Qed.

(** C3, instance: the row of a prefix operator, loaded into an empty
    collection. *)
Lemma from_catalog_loaded_witness :
  ∃ self',
    _from_catalog [factorial_row] empty_dict = (self', Ok ()) ∧
    (∀ row, row ∈ [factorial_row] →
       is_Some (items self' !! tkey (catalog_key row))) ∧
    (∀ k new, items self' !! k = Some new →
       items empty_dict !! k = Some new ∨
       ∃ row, row ∈ [factorial_row] ∧ k = tkey (catalog_key row) ∧ loaded row new) ∧
    (∀ oid new, by_oid self' !! oid = Some new →
       by_oid empty_dict !! oid = Some new ∨
       ∃ row, row ∈ [factorial_row] ∧ hashable <$> row !! "oid" = Some oid ∧
              loaded row new).
Proof. apply (from_catalog_loaded [factorial_row] empty_dict). reflexivity. Defined.

Example from_catalog_factorial :
  let loaded := _from_catalog [factorial_row] empty_dict in
  let new := items loaded.1
               !! [VStr "public"; VStr "!!"; VStr "NONE"; VStr "bigint"] in
  loaded.2 = Ok () ∧
  (by_oid loaded.1 !! VInt 16500 ≫= lookup "name") = Some (VStr "!!") ∧
  (new ≫= lookup "leftarg") = Some (VStr "NONE") ∧
  (new ≫= lookup "rightarg") = Some (VStr "bigint") ∧
  (new ≫= lookup "procedure") = Some (VStr "numeric_fac") ∧
  (new ≫= lookup "commutator") = None ∧ (new ≫= lookup "negator") = None ∧
  (new ≫= lookup "restrict") = None ∧ (new ≫= lookup "join") = None ∧
  (new ≫= lookup "hashes") = None ∧ (new ≫= lookup "merges") = None.
Proof. vm_compute. repeat (split; [reflexivity|]). reflexivity. Qed.

(** ** OperatorDict.find *)

Lemma split_func_args_signature (name content : string) :
  Str.count name "(" = 0%nat →
  split_func_args (VStr (name +:+ "(" +:+ content +:+ ")"))
  = Ok (VStr name,
        match Str.split content "," with
        | [] => []
        | l :: rs => VStr l :: ((λ r, VStr (Str.lstrip r)) <$> rs)
        end).
Proof.
  intros Hname. unfold split_func_args.
  destruct (signature_slices name content Hname) as [Hn Hc].
  rewrite Hn, Hc. rewrite bool_decide_false; [done|].
  change (name +:+ "(" +:+ content +:+ ")")
    with (name +:+ String "(" (content +:+ String ")" "")).
  rewrite find_app_first by done.
  intros [?|H]; [lia|]. apply H, slice_last_endswith.
  rewrite endswith_app_cons.
  change (String "(" (content +:+ String ")" ""))
    with ("(" +:+ content +:+ String ")" "").
  rewrite <-str_app_assoc. apply endswith_app.
Qed.

Section Find.

Variable split_schema_obj : value → option value → result (value * value).

(** C8: for a signature that [split_schema_obj] splits into a schema and
    a well-formed name(leftType,rightType), [find] splits the name at
    the first ( and the closing ) and the operands at the comma, as the
    key parser of [from_map] does for the same signature, and returns
    what the collection holds under (schema, name, leftarg, rightarg):
    the operator when the key is present and [None] otherwise, in both
    cases without an error. *)
Theorem find_well_formed (self : OperatorDict) (oper schema : value)
    (name l r : string) :
  split_schema_obj oper None
    = Ok (schema, VStr (name +:+ "(" +:+ (l +:+ "," +:+ r) +:+ ")")) →
  Str.count name "(" = 0%nat → Str.count l "," = 0%nat → Str.count r "," = 0%nat →
  let k := [schema; VStr name; VStr l; VStr (Str.lstrip r)] in
  find split_schema_obj self oper = Ok (items self !! tkey k) ∧
  (∀ new, items self !! tkey k = Some new →
          find split_schema_obj self oper = Ok (Some new)) ∧
  (items self !! tkey k = None → find split_schema_obj self oper = Ok None) ∧
  (∀ inoper d,
     from_map_item schema
       ("operator " +:+ name +:+ "(" +:+ (l +:+ "," +:+ r) +:+ ")") inoper d
     = store_parsed schema name l (Str.lstrip r) inoper d).
Proof.
  intros Hsplit Hname Hl Hr k.
  assert (find split_schema_obj self oper = Ok (items self !! tkey k)) as Hfind.
  { unfold find. rewrite Hsplit. cbn [mbind result_bind].
    rewrite split_func_args_signature by done.
    change (l +:+ "," +:+ r) with (l +:+ String "," r).
    by rewrite split_app_first, split_none. }
  split_and!; [done| | |].
  - intros new Hnew. by rewrite Hfind, Hnew.
  - intros Hnone. by rewrite Hfind, Hnone.
  - intros inoper d. by apply from_map_item_two_operands.
Qed.

End Find.

(** C8, instances: the signature of the docstring of [find], which is
    found in the collection loaded from a document, and the signature of
    an operator that is not there. *)
Lemma find_well_formed_witness :
  (∃ new, find example_split_schema_obj hstore_operators (VStr "#>=#(hstore,hstore)")
          = Ok (Some new) ∧ new !! "procedure" = Some (VStr "hstore_ge")) ∧
  find example_split_schema_obj hstore_operators (VStr "#<=#(hstore,hstore)")
  = Ok None.
Proof.
  split.
  - destruct (find_well_formed example_split_schema_obj hstore_operators
                (VStr "#>=#(hstore,hstore)") (VStr "public") "#>=#" "hstore" "hstore")
      as (Hfind & _); [reflexivity..|].
    eexists. split; [exact Hfind|]. vm_compute. reflexivity.
  - destruct (find_well_formed example_split_schema_obj hstore_operators
                (VStr "#<=#(hstore,hstore)") (VStr "public") "#<=#" "hstore" "hstore")
      as (_ & _ & Hnone & _); [reflexivity..|].
    apply Hnone. vm_compute. reflexivity.
Defined.

(** * Further properties *)

(** ** OperatorDict.from_map: what a load stores *)

Lemma map_fold_setattr (inoper oper : attrs) :
  map_fold setattr oper inoper = inoper ∪ oper.
Proof.
  apply (map_fold_weak_ind (λ r m, r = m ∪ oper)).
  - by rewrite (left_id_L ∅ (∪)).
  - intros a v m r Hm ->. unfold setattr. by rewrite insert_union_l.
Qed.

Lemma set_attributes_union (inoper oper : attrs) :
  set_attributes inoper oper = inoper ∪ oper.
Proof.
  unfold set_attributes. rewrite map_fold_setattr. unfold setattr.
  assert (∀ a v, inoper !! a = Some v → <[a := v]> (inoper ∪ oper) = inoper ∪ oper)
    as Hid.
  { intros a v Hv. apply insert_id. by apply lookup_union_Some_l. }
  destruct (inoper !! "oldname") as [v|] eqn:Hold;
    destruct (inoper !! "description") as [w|] eqn:Hdesc;
    rewrite ?(Hid _ _ Hold), ?(Hid _ _ Hdesc); done.
Qed.

Lemma from_map_item_by_oid (schema_name : value) (key : string)
    (inoper : option attrs) (self : OperatorDict) :
  by_oid (from_map_item schema_name key inoper self).1 = by_oid self.
Proof.
  unfold from_map_item.
  destruct (Str.partition key " ") as [[objtype spc] opr].
  case_bool_decide; [done|]. case_bool_decide; [done|].
  destruct (Str.split _ ",") as [|l [|r [|? ?]]]; try done.
  by destruct (spec_falsy inoper).
Qed.

Lemma split_no_sep (s : string) (c : ascii) :
  Forall (λ x, Str.count x c = 0%nat) (Str.split s c).
Proof.
  induction s as [|a s IH]; simpl.
  - by constructor.
  - destruct (decide (a = c)) as [->|Hne].
    + by constructor.
    + destruct (Str.split s c) as [|h t]; simpl.
      * constructor; [|done]. simpl. by rewrite decide_False.
      * inversion IH; subst. constructor; [|done]. simpl.
        by rewrite decide_False.
Qed.

Lemma lstrip_suffix (s : string) : ∃ ws, all_space ws = true ∧ s = ws +:+ Str.lstrip s.
Proof.
  induction s as [|a s (ws & Hws & IH)]; [by exists ""|]. simpl.
  destruct (Str.isspace a) eqn:Ha.
  - exists (String a ws). simpl. rewrite Ha, Hws. split; [done|].
    rewrite str_app_cons. by f_equal.
  - by exists "".
Qed.

Lemma lstrip_idemp (s : string) : Str.lstrip (Str.lstrip s) = Str.lstrip s.
Proof.
  induction s as [|a s IH]; [done|]. simpl.
  destruct (Str.isspace a) eqn:Ha; [done|]. simpl. by rewrite Ha.
Qed.

Lemma lstrip_all_space (ws s : string) :
  all_space ws = true → Str.lstrip (ws +:+ s) = Str.lstrip s.
Proof.
  induction ws as [|a ws IH]; [done|]. simpl.
  intros [Ha Hws]%andb_true_iff.
  change (String a ws +:+ s) with (String a (ws +:+ s)). simpl.
  rewrite Ha. by apply IH.
Qed.

Lemma count_all_space (ws : string) (c : ascii) :
  all_space ws = true → Str.isspace c = false → Str.count ws c = 0%nat.
Proof.
  induction ws as [|a ws IH]; [done|]. simpl.
  intros [Ha Hws]%andb_true_iff Hc. rewrite IH by done.
  destruct (decide (a = c)) as [->|]; [congruence|done].
Qed.

Lemma count_lstrip (s : string) (c : ascii) :
  Str.count s c = 0%nat → Str.count (Str.lstrip s) c = 0%nat.
Proof.
  destruct (lstrip_suffix s) as (ws & _ & Hs). rewrite Hs at 1.
  rewrite str_count_app. lia.
Qed.

(** What one key of the input map does to the dictionary: nothing, or
    one entry under a parsed key. *)
Lemma from_map_item_items (schema_name : value) (key : string)
    (inoper : option attrs) (self : OperatorDict) :
  items (from_map_item schema_name key inoper self).1 = items self ∨
  ∃ k new, parsed_key schema_name k ∧
    items (from_map_item schema_name key inoper self).1
    = <[k := new]> (items self).
Proof.
  destruct (Str.startswith key "operator ") eqn:Htag;
    [|left; by rewrite from_map_item_tag].
  apply startswith_inv in Htag as [opr ->].
  destruct (decide (Str.count opr "(" = 0%nat)) as [Hp|Hp];
    [left; rewrite from_map_item_parens; auto|].
  destruct (Str.endswith opr ")") eqn:Hend;
    [|left; rewrite from_map_item_parens; auto].
  destruct (signature_form opr Hp Hend) as (name & content & -> & Hname).
  rewrite from_map_item_signature by done.
  pose proof (split_no_sep content ",") as Hsep.
  destruct (Str.split content ",") as [|l [|r [|? ?]]]; try by left.
  right. apply Forall_cons in Hsep as [Hl [Hr _]%Forall_cons].
  assert (parsed_key schema_name
            (tkey [schema_name; VStr name; VStr l; VStr (Str.lstrip r)])) as Hk.
  { exists name, l, (Str.lstrip r).
    split_and!; [done..|by apply count_lstrip|apply lstrip_idemp]. }
  unfold store_parsed. destruct (spec_falsy inoper); simpl.
  - eauto.
  - rewrite insert_insert_eq. eauto.
Qed.

(** X1: a key of the form operator name(l,r) with a specification that
    is not empty loads without error.  The collection gets one entry,
    under (schema, name, l, r) with leading whitespace trimmed from r; the
    operator stored has every attribute of the specification, and from the
    key the attributes schema, name, leftarg and rightarg that the
    specification does not give itself.  No other entry changes. *)
Theorem from_map_item_stores (schema_name : value) (name l r : string)
    (inoper : attrs) (self : OperatorDict) :
  Str.count name "(" = 0%nat → Str.count l "," = 0%nat → Str.count r "," = 0%nat →
  inoper ≠ ∅ →
  let k := tkey [schema_name; VStr name; VStr l; VStr (Str.lstrip r)] in
  ∃ self' new,
    from_map_item schema_name
      ("operator " +:+ name +:+ "(" +:+ (l +:+ "," +:+ r) +:+ ")")
      (Some inoper) self = (self', Ok ()) ∧
    items self' !! k = Some new ∧
    (∀ a v, inoper !! a = Some v → new !! a = Some v) ∧
    (∀ a, inoper !! a = None →
          new !! a = new_operator schema_name name l (Str.lstrip r) !! a) ∧
    (∀ k', k' ≠ k → items self' !! k' = items self !! k') ∧
    by_oid self' = by_oid self.
Proof.
  intros Hname Hl Hr Hne k.
  rewrite from_map_item_two_operands by done. unfold store_parsed.
  assert (spec_falsy (Some inoper) = false) as ->
    by (simpl; by rewrite bool_decide_false).
  cbn [default from_option id]. rewrite set_attributes_union.
  do 2 eexists. split_and!; [reflexivity| | | | |done].
  - simpl. apply lookup_insert_eq.
  - intros a v Hv. by apply lookup_union_Some_l.
  - intros a Ha. by rewrite lookup_union_r.
  - intros k' Hk'. simpl. by rewrite !lookup_insert_ne.
Qed.

(** X1, instance: the key operator @>(box,box) with the specification
    procedure: box_contain. *)
Lemma from_map_item_stores_witness :
  ∃ self' new,
    from_map_item (VStr "public") "operator @>(box,box)"
      (Some {["procedure" := VStr "box_contain"]}) empty_dict = (self', Ok ()) ∧
    items self' !! tkey [VStr "public"; VStr "@>"; VStr "box"; VStr "box"]
      = Some new ∧
    new !! "procedure" = Some (VStr "box_contain") ∧
    new !! "schema" = Some (VStr "public") ∧ new !! "name" = Some (VStr "@>") ∧
    new !! "leftarg" = Some (VStr "box") ∧ new !! "rightarg" = Some (VStr "box").
Proof.
  destruct (from_map_item_stores (VStr "public") "@>" "box" "box"
              {["procedure" := VStr "box_contain"]} empty_dict)
    as (self' & new & Hload & Hnew & Hspec & Hkey & _); [reflexivity..|done|].
  exists self', new. split_and!; [exact Hload|exact Hnew|..].
  - by apply Hspec.
  - by rewrite Hkey.
  - by rewrite Hkey.
  - by rewrite Hkey.
  - by rewrite Hkey.
Defined.

(** X2: loading one list of keys after another is loading them in one
    go; when a key of the first list fails, the load stops there with the
    collection as that key left it, and the second list is not looked
    at. *)
Theorem from_map_app (schema_name : value)
    (inopers1 inopers2 : list (string * option attrs)) (self : OperatorDict) :
  from_map schema_name (inopers1 ++ inopers2) self
  = match from_map schema_name inopers1 self with
    | (self', Ok _) => from_map schema_name inopers2 self'
    | (self', Raise e) => (self', Raise e)
    end.
Proof.
  revert self. induction inopers1 as [|[key inoper] rest IH]; intros self.
  { done. }
  rewrite <-app_comm_cons, !from_map_cons.
  destruct (from_map_item schema_name key inoper self) as [self' [[]|e]]; [|done].
  apply IH.
Qed.

(** X3: whatever the input map and however the load ends, [from_map]
    leaves the index by oid as it was and removes no key of the
    collection. *)
Theorem from_map_preserves (schema_name : value)
    (inopers : list (string * option attrs)) (self : OperatorDict) :
  by_oid (from_map schema_name inopers self).1 = by_oid self ∧
  dom (items self) ⊆ dom (items (from_map schema_name inopers self).1).
Proof.
  revert self. induction inopers as [|[key inoper] rest IH]; intros self.
  { done. }
  rewrite from_map_cons.
  pose proof (from_map_item_by_oid schema_name key inoper self) as Hoid.
  pose proof (from_map_item_items schema_name key inoper self) as Hitems.
  destruct (from_map_item schema_name key inoper self) as [self' [[]|e]];
    simpl in *.
  - destruct (IH self') as [-> Hdom]. split; [done|].
    etrans; [|exact Hdom].
    destruct Hitems as [->|(k & new & _ & ->)]; [done|].
    rewrite dom_insert. set_solver.
  - split; [done|].
    destruct Hitems as [->|(k & new & _ & ->)]; [done|].
    rewrite dom_insert. set_solver.
Qed.

(** X4: every key that a load adds to the collection is a key the
    parser builds: the owning schema, a name without (, operand types
    without comma, and a right operand type without leading whitespace. *)
Theorem from_map_keys (schema_name : value)
    (inopers : list (string * option attrs)) (self : OperatorDict)
    (k : list value) :
  k ∈ dom (items (from_map schema_name inopers self).1) →
  k ∈ dom (items self) ∨ parsed_key schema_name k.
Proof.
  revert self. induction inopers as [|[key inoper] rest IH]; intros self.
  { by left. }
  rewrite from_map_cons.
  pose proof (from_map_item_items schema_name key inoper self) as Hitems.
  destruct (from_map_item schema_name key inoper self) as [self' [[]|e]];
    simpl in *.
  - intros [Hk|Hk]%IH; [|by right].
    destruct Hitems as [Heq|(k' & new & Hk' & Heq)]; rewrite Heq in Hk;
      [by left|].
    rewrite dom_insert in Hk.
    apply elem_of_union in Hk as [->%elem_of_singleton|Hk]; [by right|by left].
  - intros Hk.
    destruct Hitems as [Heq|(k' & new & Hk' & Heq)]; rewrite Heq in Hk;
      [by left|].
    rewrite dom_insert in Hk.
    apply elem_of_union in Hk as [->%elem_of_singleton|Hk]; [by right|by left].
Qed.

(** X4, instance: a document with a well-formed key, a key with
    blanks after the comma and a key of another object type; the key
    stored for the second one. *)
Lemma from_map_keys_witness :
  let self' := (from_map (VStr "public")
                  [("operator @>(box,box)",
                    Some {["procedure" := VStr "box_contain"]});
                   ("operator <@(box,   box)", None);
                   ("function foo(int,int)", None)] empty_dict).1 in
  let k := tkey [VStr "public"; VStr "<@"; VStr "box"; VStr "box"] in
  k ∈ dom (items self') ∧
  (k ∈ dom (items empty_dict) ∨ parsed_key (VStr "public") k).
Proof.
  intros self' k.
  assert (k ∈ dom (items self')) as Hk.
  { apply elem_of_dom. vm_compute. eexists. reflexivity. }
  split; [exact Hk|]. exact (from_map_keys _ _ _ _ Hk).
Defined.

Lemma from_map_item_trim (schema_name : value) (name l r ws : string)
    (inoper : option attrs) (self : OperatorDict) :
  Str.count name "(" = 0%nat → Str.count l "," = 0%nat → Str.count r "," = 0%nat →
  all_space ws = true →
  from_map_item schema_name
    ("operator " +:+ name +:+ "(" +:+ (l +:+ "," +:+ (ws +:+ r)) +:+ ")")
    inoper self
  = store_parsed schema_name name l (Str.lstrip r) inoper self.
Proof.
  intros Hname Hl Hr Hws.
  rewrite from_map_item_two_operands; [|done..|].
  - by rewrite lstrip_all_space.
  - rewrite str_count_app, Hr. by rewrite count_all_space.
Qed.

(** X5: whitespace after the comma of a key does not count.  Two keys
    that differ only there are parsed into the same operator and stored
    under the same key of the collection, so that in one document the
    later of them replaces the earlier. *)
Theorem from_map_item_whitespace (schema_name : value) (name l r ws : string)
    (inoper : option attrs) (self : OperatorDict) :
  Str.count name "(" = 0%nat → Str.count l "," = 0%nat → Str.count r "," = 0%nat →
  all_space ws = true →
  from_map_item schema_name
    ("operator " +:+ name +:+ "(" +:+ (l +:+ "," +:+ (ws +:+ r)) +:+ ")")
    inoper self
  = from_map_item schema_name
      ("operator " +:+ name +:+ "(" +:+ (l +:+ "," +:+ r) +:+ ")") inoper self.
Proof.
  intros Hname Hl Hr Hws.
  rewrite from_map_item_trim by done.
  by rewrite from_map_item_two_operands.
Qed.

(** X5, instance: a tab and two blanks after the comma. *)
Lemma from_map_item_whitespace_witness :
  from_map_item (VStr "public") "operator @>(box,	  box)" None empty_dict
  = from_map_item (VStr "public") "operator @>(box,box)" None empty_dict.
Proof.
  apply (from_map_item_whitespace (VStr "public") "@>" "box" "box" "	  ");
    reflexivity.
Defined.

(** X6: the external key of the operator that the loader builds from a
    key is the key in its canonical form, with one blank after the comma,
    and the loader parses this form into the same operator: parsing,
    writing and parsing again is parsing once. *)
Theorem from_map_extern_key (schema_name : value) (name l r : string)
    (inoper : option attrs) (self : OperatorDict) :
  Str.count name "(" = 0%nat → Str.count l "," = 0%nat → Str.count r "," = 0%nat →
  let key := "operator " +:+ name +:+ "(" +:+ (l +:+ "," +:+ r) +:+ ")" in
  let canonical :=
    "operator " +:+ name +:+ "(" +:+ (l +:+ "," +:+ (" " +:+ Str.lstrip r)) +:+ ")" in
  extern_key (new_operator schema_name name l (Str.lstrip r)) = Ok canonical ∧
  from_map_item schema_name canonical inoper self
  = from_map_item schema_name key inoper self.
Proof.
  intros Hname Hl Hr key canonical. subst key canonical. split.
  - rewrite (extern_key_str _ (VStr name) (VStr l) (VStr (Str.lstrip r)))
      by (by rewrite new_operator_lookup).
    f_equal. simpl str.
    rewrite (str_app_assoc l ("," +:+ " " +:+ Str.lstrip r) ")"). reflexivity.
  - rewrite (from_map_item_trim _ _ _ (Str.lstrip r) " ");
      [|done..|by apply count_lstrip|done].
    rewrite lstrip_idemp. by rewrite from_map_item_two_operands.
Qed.

(** X6, instance: a key without a blank after the comma. *)
Lemma from_map_extern_key_witness :
  extern_key (new_operator (VStr "public") "@>" "box" "box")
  = Ok "operator @>(box, box)" ∧
  from_map_item (VStr "public") "operator @>(box, box)" None empty_dict
  = from_map_item (VStr "public") "operator @>(box,box)" None empty_dict.
Proof.
  apply (from_map_extern_key (VStr "public") "@>" "box" "box" None empty_dict);
    reflexivity.
Defined.

(** ** OperatorDict._from_catalog: rows that lack a column, and lookups *)

(** The loop body reads the nine columns of the row in the order of
    [read_columns], each once it has dealt with the one before, and then
    builds the operator. *)
Lemma from_catalog_row_reads (row : attrs) :
  from_catalog_row row
  = (oid ← getattr row "oid";
     _ ← getattr row "schema"; _ ← getattr row "name";
     _ ← getattr row "leftarg"; _ ← getattr row "rightarg";
     _ ← getattr row "commutator"; _ ← getattr row "negator";
     _ ← getattr row "restrict"; _ ← getattr row "join";
     mret (oid, catalog_key row, normalize_row row)).
Proof.
  unfold from_catalog_row, key, keylist, catalog_key, normalize_row, getattr.
  destruct (row !! "oid") as [oid|] eqn:Hoid; [|done].
  cbn [mbind result_bind mapM].
  destruct (row !! "schema") as [sch|] eqn:Hsch; [|done].
  cbn [mbind result_bind].
  destruct (row !! "name") as [opr|] eqn:Hopr; [|done].
  cbn [mbind result_bind].
  destruct (row !! "leftarg") as [lft|] eqn:Hlft; [|done].
  cbn [mbind result_bind].
  destruct (row !! "rightarg") as [rgt|] eqn:Hrgt; [|done].
  cbn [mbind result_bind mret result_ret default from_option id].
  rewrite (setattr_step row "leftarg" lft Hlft).
  set (o1 := none_operand "leftarg" row).
  assert (o1 !! "rightarg" = Some rgt) as H1
    by (subst o1; by rewrite lookup_none_operand, decide_False).
  rewrite (setattr_step o1 "rightarg" rgt H1).
  set (o2 := none_operand "rightarg" o1).
  assert (∀ a, a ≠ "leftarg" → a ≠ "rightarg" → o2 !! a = row !! a) as H2.
  { intros a ??. subst o2 o1.
    by rewrite !lookup_none_operand, !decide_False. }
  rewrite (H2 "commutator") by done.
  destruct (row !! "commutator") as [com|] eqn:Hcom; [|done].
  cbn [mbind result_bind].
  rewrite (delattr_step o2 "0" "commutator" com) by (by rewrite H2).
  cbn [mbind result_bind].
  set (o3 := drop_marker "0" "commutator" o2).
  assert (o3 !! "negator" = row !! "negator") as H3
    by (subst o3; by rewrite lookup_drop_marker, decide_False, H2).
  rewrite H3. destruct (row !! "negator") as [neg|] eqn:Hneg; [|done].
  cbn [mbind result_bind].
  rewrite (delattr_step o3 "0" "negator" neg H3). cbn [mbind result_bind].
  set (o4 := drop_marker "0" "negator" o3).
  assert (∀ a, a ≠ "commutator" → a ≠ "negator" → o4 !! a = o2 !! a) as H4.
  { intros a ??. subst o4 o3.
    by rewrite !lookup_drop_marker, !decide_False. }
  rewrite (H4 "restrict"), H2 by done.
  destruct (row !! "restrict") as [res|] eqn:Hres; [|done].
  cbn [mbind result_bind].
  rewrite (delattr_step o4 "-" "restrict" res) by (by rewrite H4, H2).
  cbn [mbind result_bind].
  set (o5 := drop_marker "-" "restrict" o4).
  assert (o5 !! "join" = row !! "join") as H5
    by (subst o5; by rewrite lookup_drop_marker, decide_False, H4, H2).
  rewrite H5. destruct (row !! "join") as [jn|] eqn:Hjn; [|done].
  cbn [mbind result_bind].
  rewrite (delattr_step o5 "-" "join" jn H5).
  reflexivity.
Qed.

Lemma from_catalog_row_missing (row : attrs) (a : string) :
  first_missing row = Some a → from_catalog_row row = Raise (AttributeError a).
Proof.
  rewrite from_catalog_row_reads. unfold first_missing, read_columns, getattr.
  cbn [List.find]. rewrite !hasattr_lookup.
  repeat (match goal with
          | |- context [row !! ?c] => destruct (row !! c); cbn [negb]
          end; [cbn [mbind result_bind]|by intros [= <-]]).
  done.
Qed.

Lemma from_catalog_app (rows1 rows2 : list attrs) (self : OperatorDict) :
  _from_catalog (rows1 ++ rows2) self
  = match _from_catalog rows1 self with
    | (self', Ok _) => _from_catalog rows2 self'
    | (self', Raise e) => (self', Raise e)
    end.
Proof.
  revert self. induction rows1 as [|row rows IH]; intros self; [done|].
  rewrite <-app_comm_cons, !from_catalog_cons.
  destruct (from_catalog_row row) as [[[oid k] new]|e]; [apply IH|done].
Qed.

Lemma from_catalog_complete (rows : list attrs) (self : OperatorDict) :
  forallb complete_row rows = true →
  _from_catalog rows self = (foldl load_row self rows, Ok ()).
Proof.
  revert self. induction rows as [|row rows IH]; intros self Hrows; [done|].
  simpl in Hrows. apply andb_true_iff in Hrows as [Hrow Hrows].
  destruct (from_catalog_row_normalize row Hrow) as (oid & Hoid & Heq).
  rewrite from_catalog_cons, Heq, IH by done. simpl foldl.
  assert (load_row self row
          = set_by_oid oid (normalize_row row)
              (setitem (catalog_key row) (normalize_row row) self)) as ->
    by (unfold load_row; by rewrite Hoid).
  done.
Qed.

(** X7: a row that lacks one of the columns the loader reads stops the
    load with the AttributeError of the first column it lacks.  The rows
    before it are loaded, and nothing of the row itself or of the rows
    after it is stored: the collection is changed only once a row is
    read in full. *)
Theorem from_catalog_missing_column (rows rest : list attrs) (row : attrs)
    (self : OperatorDict) (a : string) :
  forallb complete_row rows = true → first_missing row = Some a →
  _from_catalog (rows ++ row :: rest) self
  = (foldl load_row self rows, Raise (AttributeError a)).
Proof.
  intros Hrows Hmiss.
  rewrite from_catalog_app, from_catalog_complete, from_catalog_cons by done.
  by rewrite (from_catalog_row_missing row a).
Qed.

(** X7, instance: a row without the column join between two rows that
    have their columns. *)
Lemma from_catalog_missing_column_witness :
  _from_catalog ([factorial_row] ++ short_row :: [concat_row]) empty_dict
  = (foldl load_row empty_dict [factorial_row], Raise (AttributeError "join")).
Proof.
  apply (from_catalog_missing_column [factorial_row] [concat_row] short_row
           empty_dict "join"); reflexivity.
Defined.

Lemma foldl_load_row_items (rows : list attrs) (self : OperatorDict)
    (k : list value) :
  k ∉ row_key <$> rows →
  items (foldl load_row self rows) !! k = items self !! k.
Proof.
  revert self. induction rows as [|row rows IH]; intros self Hk; [done|].
  rewrite fmap_cons, not_elem_of_cons in Hk. destruct Hk as [Hne Hk].
  simpl foldl. rewrite IH by done. simpl. by rewrite lookup_insert_ne.
Qed.

Lemma foldl_load_row_by_oid (rows : list attrs) (self : OperatorDict)
    (oid : value) :
  oid ∉ row_oid <$> rows →
  by_oid (foldl load_row self rows) !! oid = by_oid self !! oid.
Proof.
  revert self. induction rows as [|row rows IH]; intros self Hk; [done|].
  rewrite fmap_cons, not_elem_of_cons in Hk. destruct Hk as [Hne Hk].
  simpl foldl. rewrite IH by done. simpl. by rewrite lookup_insert_ne.
Qed.

(** X8: after a load of rows with pairwise different keys and pairwise
    different oids, each row is found under its key and under its oid,
    and both dictionaries hold the operator that the normalization makes
    of the row. *)
Theorem from_catalog_lookup (rows : list attrs) (self : OperatorDict)
    (row : attrs) :
  forallb complete_row rows = true →
  NoDup (row_key <$> rows) → NoDup (row_oid <$> rows) → row ∈ rows →
  let self' := (_from_catalog rows self).1 in
  items self' !! row_key row = Some (normalize_row row) ∧
  by_oid self' !! row_oid row = Some (normalize_row row).
Proof.
  intros Hrows Hkeys Hoids Hrow self'. subst self'.
  rewrite from_catalog_complete by done. simpl. clear Hrows.
  revert self Hkeys Hoids Hrow.
  induction rows as [|r rows IH]; intros self Hkeys Hoids Hrow.
  { by apply elem_of_nil in Hrow. }
  rewrite fmap_cons in Hkeys. rewrite fmap_cons in Hoids.
  apply NoDup_cons in Hkeys as [Hk Hkeys]. apply NoDup_cons in Hoids as [Ho Hoids].
  simpl foldl. apply elem_of_cons in Hrow as [->|Hrow]; [|by apply IH].
  rewrite foldl_load_row_items, foldl_load_row_by_oid by done.
  simpl. by rewrite !lookup_insert_eq.
Qed.

(** X8, instance: two rows of the catalog. *)
Lemma from_catalog_lookup_witness :
  let self' := (_from_catalog [factorial_row; concat_row] empty_dict).1 in
  items self' !! row_key factorial_row = Some (normalize_row factorial_row) ∧
  by_oid self' !! row_oid factorial_row = Some (normalize_row factorial_row).
Proof.
  apply (from_catalog_lookup [factorial_row; concat_row] empty_dict factorial_row).
  - reflexivity.
  - vm_compute. repeat constructor; set_solver.
  - vm_compute. repeat constructor; set_solver.
  - by left.
Defined.

(** ** Operator.create on an operator loaded from the catalog *)

Lemma listed_cons (b : bool) (t : string) (rest : list (bool * string)) :
  snd <$> filter (λ c, c.1 = true) ((b, t) :: rest)
  = (if b then [t] else []) ++ (snd <$> filter (λ c, c.1 = true) rest).
Proof.
  rewrite filter_cons. simpl. destruct b.
  - by rewrite decide_True.
  - by rewrite decide_False.
Qed.

Lemma py_ne_NONE_dash : py_ne (VStr "NONE") (VStr "-") = true.
Proof. reflexivity. Qed.

Lemma listed_catalog_clauses (row : attrs) :
  complete_row row = true →
  snd <$> filter (λ c, c.1 = true) (optional_clauses (normalize_row row))
  = snd <$> filter (λ c, c.1 = true) (catalog_clauses row).
Proof.
  intros Hrow.
  destruct (complete_row_lookup row "leftarg" Hrow) as [lft Hlft]; [set_solver|].
  destruct (complete_row_lookup row "rightarg" Hrow) as [rgt Hrgt]; [set_solver|].
  destruct (complete_row_lookup row "commutator" Hrow) as [com Hcom]; [set_solver|].
  destruct (complete_row_lookup row "negator" Hrow) as [neg Hneg]; [set_solver|].
  destruct (complete_row_lookup row "restrict" Hrow) as [res Hres]; [set_solver|].
  destruct (complete_row_lookup row "join" Hrow) as [jn Hjn]; [set_solver|].
  destruct (normalize_row_loaded row)
    as (Hl & Hr & Hc & Hn & Hs & Hj & Hh & Hm).
  unfold optional_clauses, catalog_clauses.
  rewrite !hasattr_lookup, !listed_cons.
  rewrite (Hl lft Hlft), (Hr rgt Hrgt), (Hc com Hcom), (Hn neg Hneg),
    (Hs res Hres), (Hj jn Hjn), Hh, Hm, Hlft, Hrgt, Hcom, Hneg, Hres, Hjn.
  cbn [default from_option id]. unfold py_ne.
  repeat match goal with |- _ ++ _ = _ ++ _ => f_equal end;
    repeat (match goal with
            | |- context [py_eq ?v (VStr ?m)] =>
                lazymatch v with
                | VStr _ => fail
                | _ => destruct (py_eq v (VStr m)) eqn:?
                end
            | |- context [row !! ?a] => destruct (row !! a)
            | |- context [truthy ?v] => destruct (truthy v) eqn:?
            end; simpl); try done.
Qed.

(** X9: the CREATE statement of an operator loaded from a row of the
    catalog lists, after PROCEDURE, LEFTARG and RIGHTARG iff the operand
    of the row is neither [-] nor NONE, COMMUTATOR and NEGATOR iff the
    column is not [0], RESTRICT and JOIN iff the column is not [-], and
    HASHES and MERGES iff the flag of the row is true: no marker of the
    catalog reaches the statement. *)
Theorem create_loaded_row (quote_id : value → result string) (row : attrs)
    (procedure q : value) :
  complete_row row = true → row !! "procedure" = Some procedure →
  qualname quote_id (normalize_row row) = Ok q →
  create quote_id (normalize_row row)
  = Ok [create_statement (str q) (str procedure) (catalog_clauses row)].
Proof.
  intros Hrow Hp Hq.
  destruct (complete_row_lookup row "leftarg" Hrow) as [lft Hlft]; [set_solver|].
  destruct (complete_row_lookup row "rightarg" Hrow) as [rgt Hrgt]; [set_solver|].
  destruct (normalize_row_loaded row) as (Hl & Hr & _).
  unfold create.
  rewrite (create_opt_clauses_filter _ _ _ (Hl lft Hlft) (Hr rgt Hrgt)), Hq.
  cbn [mbind result_bind]. unfold getattr.
  rewrite normalize_row_lookup. repeat (rewrite decide_False by set_solver).
  rewrite Hp. cbn [mbind result_bind mret result_ret].
  unfold create_statement. by rewrite join_sep_foldr, listed_catalog_clauses.
Qed.

(** X9, instance: the row of a prefix operator, whose statement has the
    clause RIGHTARG only. *)
Lemma create_loaded_row_witness :
  create example_quote_id (normalize_row factorial_row)
  = Ok [create_statement "!!" "numeric_fac" (catalog_clauses factorial_row)] ∧
  create_statement "!!" "numeric_fac" (catalog_clauses factorial_row)
  = "CREATE OPERATOR !! (" +:+ nl +:+ "    PROCEDURE = numeric_fac," +:+ nl +:+
    "    RIGHTARG = bigint)".
Proof.
  split; [|reflexivity].
  apply (create_loaded_row example_quote_id factorial_row (VStr "numeric_fac")
           (VStr "!!")); reflexivity.
Defined.

(** ** Operator.qualname, Operator.identifier and Operator.extern_key *)

Lemma str_app_length_ne (s t : string) : s ≠ "" → s +:+ t ≠ t.
Proof.
  intros Hs E. apply (f_equal Str.length) in E. rewrite str_length_app in E.
  destruct s; [done|]. simpl in E. lia.
Qed.

(** X10: for an operator whose schema and name are strings, [qualname]
    returns the bare name exactly when the schema is public and the name
    is not empty; in every other case the name comes qualified with the
    quoted schema, and [identifier] is this qualified name followed by
    the operands. *)
Theorem qualname_bare_iff (quote_id : value → result string) (self : attrs)
    (schema name q : string) (leftarg rightarg : value) :
  self !! "schema" = Some (VStr schema) → self !! "name" = Some (VStr name) →
  self !! "leftarg" = Some leftarg → self !! "rightarg" = Some rightarg →
  quote_id (VStr schema) = Ok q →
  (qualname quote_id self = Ok (VStr name) ↔ schema = "public" ∧ name ≠ "") ∧
  (¬ (schema = "public" ∧ name ≠ "") →
   qualname quote_id self = Ok (VStr (q +:+ "." +:+ name)) ∧
   identifier quote_id self
   = Ok (q +:+ "." +:+ name +:+ "(" +:+ str leftarg +:+ ", "
           +:+ str rightarg +:+ ")")).
Proof.
  intros Hs Hn Hl Hr Hq.
  assert (¬ (schema = "public" ∧ name ≠ "") →
          qualname quote_id self = Ok (VStr (q +:+ "." +:+ name))) as Hqual.
  { intros Hno. unfold qualname, getattr. rewrite Hs, Hn.
    cbn [mbind result_bind]. rewrite Hq. cbn [mbind result_bind mret result_ret].
    unfold py_eq. simpl hashable. case_bool_decide as Hp; [|done].
    injection Hp as ->. simpl truthy. case_bool_decide; [|done]. tauto. }
  split.
  - split.
    + intros Hbare.
      destruct (decide (schema = "public" ∧ name ≠ "")) as [|Hno]; [done|].
      rewrite (Hqual Hno) in Hbare. injection Hbare as Hbare.
      rewrite <-str_app_assoc in Hbare.
      by apply str_app_length_ne in Hbare; [|destruct q].
    + intros [-> Hname]. apply qualname_public; [done..|].
      simpl. by rewrite bool_decide_true.
  - intros Hno. split; [by apply Hqual|].
    rewrite (identifier_qualname _ _ _ _ _ (Hqual Hno) Hl Hr). simpl str.
    by rewrite !str_app_assoc.
Qed.

(** X10, instances: an operator of another schema, and the operator of
    schema public without a name. *)
Lemma qualname_bare_iff_witness :
  qualname example_quote_id (<["schema" := VStr "s1"]> hstore_ge)
  = Ok (VStr "s1.#>=#") ∧
  identifier example_quote_id (<["schema" := VStr "s1"]> hstore_ge)
  = Ok "s1.#>=#(hstore, hstore)" ∧
  qualname example_quote_id unnamed = Ok (VStr "public.").
Proof.
  destruct (qualname_bare_iff example_quote_id (<["schema" := VStr "s1"]> hstore_ge)
              "s1" "#>=#" "s1" (VStr "hstore") (VStr "hstore"))
    as [_ H1]; [reflexivity..|].
  destruct (qualname_bare_iff example_quote_id unnamed
              "public" "" "public" (VStr "int4") (VStr "int4"))
    as [_ H2]; [reflexivity..|].
  split_and!.
  - apply H1. by intros [? _].
  - apply H1. by intros [? _].
  - apply H2. by intros [_ ?].
Defined.

Lemma store_parsed_key_inj (schema : value) (n1 l1 r1 n2 l2 r2 : string) :
  store_parsed schema n1 l1 r1 None empty_dict
  = store_parsed schema n2 l2 r2 None empty_dict →
  n1 = n2 ∧ l1 = l2 ∧ r1 = r2.
Proof.
  intros H.
  pose proof (f_equal (λ p, items p.1 !! tkey [schema; VStr n2; VStr l2; VStr r2]) H)
    as Hlook.
  unfold store_parsed, spec_falsy, setitem, empty_dict in Hlook.
  cbn [fst items] in Hlook.
  rewrite (lookup_insert_eq (M := gmap (list value))) in Hlook.
  apply lookup_insert_Some in Hlook as [[Hk _]|[_ Hlook]]; [|done].
  unfold tkey in Hk. rewrite !fmap_cons in Hk. cbn [hashable] in Hk.
  by injection Hk as -> -> ->.
Qed.

(** X11: [extern_key] tells the operators of a schema apart.  Two
    operators whose names hold no (, whose operand types hold no comma
    and whose right operand types do not start with whitespace have the
    same external key only if they have the same name and the same
    operand types. *)
Theorem extern_key_inj (self1 self2 : attrs) (n1 l1 r1 n2 l2 r2 : string) :
  self1 !! "name" = Some (VStr n1) → self1 !! "leftarg" = Some (VStr l1) →
  self1 !! "rightarg" = Some (VStr r1) →
  self2 !! "name" = Some (VStr n2) → self2 !! "leftarg" = Some (VStr l2) →
  self2 !! "rightarg" = Some (VStr r2) →
  Str.count n1 "(" = 0%nat → Str.count l1 "," = 0%nat → Str.count r1 "," = 0%nat →
  Str.lstrip r1 = r1 →
  Str.count n2 "(" = 0%nat → Str.count l2 "," = 0%nat → Str.count r2 "," = 0%nat →
  Str.lstrip r2 = r2 →
  extern_key self1 = extern_key self2 →
  n1 = n2 ∧ l1 = l2 ∧ r1 = r2.
Proof.
  intros Hn1 Hl1 Hr1 Hn2 Hl2 Hr2 Hcn1 Hcl1 Hcr1 Hs1 Hcn2 Hcl2 Hcr2 Hs2.
  rewrite (extern_key_str _ _ _ _ Hn1 Hl1 Hr1), (extern_key_str _ _ _ _ Hn2 Hl2 Hr2).
  simpl str. intros Hkey.
  apply (f_equal (λ m, match m with
                       | Ok k => from_map_item VNone k None empty_dict
                       | Raise _ => (empty_dict, Ok ())
                       end)) in Hkey.
  cbv beta iota in Hkey.
  assert (∀ n l r, "operator " +:+ n +:+ "(" +:+ l +:+ ", " +:+ r +:+ ")"
                   = "operator " +:+ n +:+ "(" +:+ (l +:+ "," +:+ (" " +:+ r)) +:+ ")")
    as Hform.
  { intros n l r. rewrite (str_app_assoc l ("," +:+ " " +:+ r) ")"). reflexivity. }
  rewrite !Hform in Hkey.
  rewrite !(from_map_item_trim _ _ _ _ " ") in Hkey by done.
  rewrite Hs1, Hs2 in Hkey. by apply store_parsed_key_inj in Hkey.
Qed.

(** X11, instance: the operator of the docstring of [find] and the same
    operator in another schema. *)
Lemma extern_key_inj_witness :
  extern_key hstore_ge = extern_key (<["schema" := VStr "s1"]> hstore_ge) ∧
  "#>=#" = "#>=#" ∧ "hstore" = "hstore" ∧ "hstore" = "hstore".
Proof.
  split; [reflexivity|].
  apply (extern_key_inj hstore_ge (<["schema" := VStr "s1"]> hstore_ge));
    reflexivity.
Defined.

(** ** Operator.get_implied_deps: what is added to the base set *)

Lemma length_option_list {A} (mx : option A) : (length (option_list mx) ≤ 1)%nat.
Proof. destruct mx; simpl; lia. Qed.

Lemma elem_of_option_list {A} (mx : option A) (x : A) :
  x ∈ option_list mx ↔ mx = Some x.
Proof.
  destruct mx as [y|]; simpl.
  - rewrite list_elem_of_singleton. naive_solver.
  - rewrite elem_of_nil. naive_solver.
Qed.

Section Added.

Variable split_schema_obj : value → option value → result (value * value).

Lemma restrict_found_lookup (self : attrs) (db : Db) (f : positive) :
  restrict_found split_schema_obj self db f ↔
  (v ← self !! "restrict";
   if truthy v then
     match split_schema_obj v None with
     | Ok (rschema, rname) =>
         functions db !! tkey [rschema; rname; VStr restrict_args]
     | Raise _ => None
     end
   else None) = Some f.
Proof.
  unfold restrict_found. split.
  - intros (v & rs & rn & -> & Hv & Hsplit & Hf). simpl.
    by rewrite Hv, Hsplit.
  - destruct (self !! "restrict") as [v|]; [|done]. simpl.
    destruct (truthy v) eqn:Hv; [|done].
    destruct (split_schema_obj v None) as [[rs rn]|] eqn:Hsplit; [|done].
    intros Hf. by exists v, rs, rn.
Qed.

(** X12: [get_implied_deps] returns the set of the base class together
    with at most four objects, each a type or a function: the types found
    for the two operands, the function found for the procedure and the
    function found for the restrict attribute.  It removes nothing from
    the set of the base class. *)
Theorem get_implied_deps_added (super_deps : gset DbObject) (self : attrs)
    (db : Db) (l r : string) (procedure schema fschema fname : value) :
  self !! "leftarg" = Some (VStr l) → self !! "rightarg" = Some (VStr r) →
  self !! "procedure" = Some procedure → self !! "schema" = Some schema →
  split_schema_obj procedure (Some schema) = Ok (fschema, fname) →
  (∀ v, self !! "restrict" = Some v → truthy v = true →
        is_Ok (split_schema_obj v None)) →
  let added := added_deps split_schema_obj self db l r fschema fname in
  get_implied_deps split_schema_obj super_deps self db
    = Ok (super_deps ∪ list_to_set added) ∧
  (length added ≤ 4)%nat ∧
  Forall (λ x, ∃ id, x = TypeObj id ∨ x = FunctionObj id) added.
Proof.
  intros Hl Hr Hp Hs Hsplit Hrestrict added.
  destruct (get_implied_deps_elem split_schema_obj super_deps self db l r
              procedure schema fschema fname) as (deps & -> & Helem); try done.
  split_and!.
  - f_equal. apply set_eq. intros x. rewrite Helem, elem_of_union.
    subst added. unfold added_deps.
    rewrite elem_of_list_to_set, !elem_of_app, !elem_of_option_list.
    setoid_rewrite restrict_found_lookup. rewrite !fmap_Some.
    naive_solver.
  - subst added. unfold added_deps. rewrite !length_app.
    pose proof (length_option_list (TypeObj <$> types_find db (VStr l))).
    pose proof (length_option_list (TypeObj <$> types_find db (VStr r))).
    pose proof (length_option_list (FunctionObj <$>
      functions db !! tkey [fschema; fname; VStr (argtypes l r)])).
    match goal with |- context [length (option_list ?m)] =>
      lazymatch m with context [restrict_args] =>
        pose proof (length_option_list m) end end.
    lia.
  - subst added. unfold added_deps. rewrite !Forall_app. split_and!.
    + destruct (types_find db (VStr l)); simpl; repeat constructor; eauto.
    + destruct (types_find db (VStr r)); simpl; repeat constructor; eauto.
    + destruct (functions db !! _); simpl; repeat constructor; eauto.
    + match goal with |- Forall _ (option_list (_ <$> ?m)) => destruct m end;
        simpl; repeat constructor; eauto.
Qed.

End Added.

(** X12, instance: the operator of the docstring of [find], whose two
    operands have the same type, in a database with this type and the
    procedure. *)
Lemma get_implied_deps_added_witness :
  get_implied_deps example_split_schema_obj ∅ hstore_ge hstore_db
    = Ok (∅ ∪ list_to_set [TypeObj 1; TypeObj 1; FunctionObj 7]) ∧
  (length [TypeObj 1; TypeObj 1; FunctionObj 7] ≤ 4)%nat ∧
  Forall (λ x, ∃ id, x = TypeObj id ∨ x = FunctionObj id)
    [TypeObj 1; TypeObj 1; FunctionObj 7].
Proof.
  apply (get_implied_deps_added example_split_schema_obj ∅ hstore_ge hstore_db
           "hstore" "hstore" (VStr "hstore_ge") (VStr "public") (VStr "public")
           (VStr "hstore_ge")); try reflexivity.
  intros v _ _. by eexists.
Defined.

(** ** OperatorDict.from_map: two keys for one operator *)

(** X13: when two keys of a document are parsed into the same operator,
    as two keys that differ in the whitespace after the comma are, the
    second specification replaces the first as a whole: the collection
    ends as if the first key had not been there, and no attribute of the
    first specification is kept. *)
Theorem from_map_replaces (schema_name : value) (name l r ws1 ws2 : string)
    (inoper1 inoper2 : attrs) (self : OperatorDict) :
  Str.count name "(" = 0%nat → Str.count l "," = 0%nat → Str.count r "," = 0%nat →
  all_space ws1 = true → all_space ws2 = true → inoper1 ≠ ∅ →
  let key ws := "operator " +:+ name +:+ "(" +:+ (l +:+ "," +:+ (ws +:+ r)) +:+ ")" in
  from_map schema_name [(key ws1, Some inoper1); (key ws2, Some inoper2)] self
  = from_map schema_name [(key ws2, Some inoper2)] self.
Proof.
  intros Hname Hl Hr Hws1 Hws2 Hne1 key. subst key. cbv beta.
  rewrite (from_map_cons _ _ (Some inoper1)), from_map_item_trim by done.
  unfold store_parsed at 1.
  assert (spec_falsy (Some inoper1) = false) as ->
    by (simpl; by rewrite bool_decide_false).
  rewrite !(from_map_cons _ _ (Some inoper2)), !from_map_item_trim by done.
  unfold store_parsed, setitem. cbn [items by_oid].
  rewrite !insert_insert_eq. done.
Qed.

(** X13, instance: the same operator with and without a blank after the
    comma, first with a description and then with a procedure. *)
Lemma from_map_replaces_witness :
  from_map (VStr "public")
    [("operator @>(box,box)", Some {["description" := VStr "contains"]});
     ("operator @>(box, box)", Some {["procedure" := VStr "box_contain"]})]
    empty_dict
  = from_map (VStr "public")
      [("operator @>(box, box)", Some {["procedure" := VStr "box_contain"]})]
      empty_dict.
Proof.
  apply (from_map_replaces (VStr "public") "@>" "box" "box" "" " "
           {["description" := VStr "contains"]}
           {["procedure" := VStr "box_contain"]} empty_dict);
    try reflexivity.
  apply insert_non_empty.
Defined.
